(** * supervisor_checks: the check runner

    A shallow embedding of [supervisor_checks/check_runner.py] and the
    properties of its main loop, dispatcher and restart transition.

    The runner talks to three collaborators that live outside the module:
    the supervisor XML-RPC interface, the event listener protocol of
    [supervisor.childutils] and the configured check objects.  They are
    modelled as an interface ([Environment]) over an abstract world, so every
    theorem holds for all behaviours of these collaborators.  Everything the
    runner itself does is recorded as a trace of [Event]s. *)

From stdpp Require Import gmap strings list.
From Stdlib Require Import ZArith Lia Ascii.

Local Open Scope string_scope.
Local Open Scope Z_scope.
Local Open Scope list_scope.

(** ** Data model *)

(** [supervisor.states.ProcessStates]: process states are integer codes. *)
Module ProcessStates.
Definition STOPPED : Z := 0.
Definition STARTING : Z := 10.
Definition RUNNING : Z := 20.
Definition BACKOFF : Z := 30.
Definition STOPPING : Z := 40.
Definition EXITED : Z := 100.
Definition FATAL : Z := 200.
Definition UNKNOWN : Z := 1000.
End ProcessStates.

(** A process descriptor as returned by [getAllProcessInfo] and
    [getProcessInfo]: the runner reads the keys ['name'], ['group'] and
    ['state'] of the struct, which supervisor always provides. *)
Record ProcessSpec := mkProcessSpec {
  name : string;
  group : string;
  state : Z
}.

Definition EVENT_NAME_KEY : string := "eventname".
Definition MAX_THREADS : nat := 16.
Definition TICK_EVENTS : gset string := {[ "TICK_5"; "TICK_60"; "TICK_3600" ]}.

(** The header block of an event: a dict from header names to values. *)
Abbreviation Headers := (gmap string string).

(** ** Exceptions

    The exception classes the runner names or can meet.  [Exception] stands
    for any other error class; all the classes below derive from it.  What
    is raised outside [Exception] ([SystemExit], [KeyboardInterrupt]) is not
    an error of a check or of an RPC call and is left out. *)
Inductive exn_class :=
| Exception
| Fault              (* xmlrpclib.Fault *)
| WaitInterrupted    (* childutils.WaitInterrupted *)
| KeyError
| TypeError.

Record exn := mkExn { exn_cls : exn_class; exn_str : string }.

Definition exn_class_eqb (a b : exn_class) : bool :=
  match a, b with
  | Exception, Exception | Fault, Fault | WaitInterrupted, WaitInterrupted
  | KeyError, KeyError | TypeError, TypeError => true
  | _, _ => false
  end.

(** [isinstance e cls]: the test an [except cls] clause performs. *)
Definition isinstance (e : exn) (cls : exn_class) : bool :=
  match cls with
  | Exception => true
  | _ => exn_class_eqb (exn_cls e) cls
  end.

Definition result (A : Type) : Type := exn + A.

(** ** String formatting *)

Definition LF : string := String (ascii_of_nat 10) "".

(** [msg % args] for the only conversion the runner uses, [%s] (and the
    escape [%%]).  Arguments arrive already converted with [str]. *)
Fixpoint pyformat (msg : string) (args : list string) : result string :=
  match msg with
  | "" =>
      match args with
      | [] => inr ""
      | _ => inl (mkExn TypeError
                    "not all arguments converted during string formatting")
      end
  | String c rest =>
      if Ascii.eqb c "%" then
        match rest with
        | String d rest' =>
            if Ascii.eqb d "s" then
              match args with
              | a :: args' =>
                  match pyformat rest' args' with
                  | inr s => inr (a +:+ s)
                  | inl e => inl e
                  end
              | [] => inl (mkExn TypeError
                             "not enough arguments for format string")
              end
            else if Ascii.eqb d "%" then
              match pyformat rest' args with
              | inr s => inr (String "%" s)
              | inl e => inl e
              end
            else inl (mkExn Exception "unsupported format character")
        | "" => inl (mkExn Exception "incomplete format")
        end
      else
        match pyformat rest args with
        | inr s => inr (String c s)
        | inl e => inl e
        end
  end.

(** [datetime.datetime]: the fields [strftime] reads. *)
Record datetime := mkDatetime {
  year : nat; month : nat; day : nat;
  hour : nat; minute : nat; second : nat
}.

Definition digit (n : nat) : ascii := ascii_of_nat (48 + n mod 10)%nat.

(** A field printed as a zero-padded decimal number of width two. *)
Definition two_digits (n : nat) : string :=
  String (digit (n / 10)%nat) (String (digit n) "").

(** The year printed as a decimal number of width four ([datetime] years
    range over 1..9999). *)
Definition four_digits (n : nat) : string :=
  String (digit (n / 1000)%nat) (String (digit (n / 100)%nat)
    (String (digit (n / 10)%nat) (String (digit n) ""))).

(** The conversion a directive character stands for. *)
Definition directive (d : ascii) (dt : datetime) : string :=
  if Ascii.eqb d "Y" then four_digits (year dt)
  else if Ascii.eqb d "m" then two_digits (month dt)
  else if Ascii.eqb d "d" then two_digits (day dt)
  else if Ascii.eqb d "H" then two_digits (hour dt)
  else if Ascii.eqb d "M" then two_digits (minute dt)
  else if Ascii.eqb d "S" then two_digits (second dt)
  else if Ascii.eqb d "%" then "%"
  else String "%" (String d "").

Fixpoint strftime (dt : datetime) (fmt : string) : string :=
  match fmt with
  | "" => ""
  | String c rest =>
      if Ascii.eqb c "%" then
        match rest with
        | String d rest' => directive d dt +:+ strftime dt rest'
        | "" => "%"
        end
      else String c (strftime dt rest)
  end.

(** [supervisor.options.make_namespec]: a process named like its group is
    addressed by the bare name, any other by ["group:name"]. *)
Definition make_namespec (group_name process_name : string) : string :=
  if String.eqb group_name process_name then process_name
  else group_name +:+ ":" +:+ process_name.

(** ** Effects

    What the runner does to the outside, in program order. *)
Inductive Event :=
| StderrWrite (line : string)                  (* sys.stderr.write *)
| StderrFlush                                  (* sys.stderr.flush *)
| GetRPCInterface                              (* childutils.getRPCInterface *)
| GetAllProcessInfo                            (* supervisor.getAllProcessInfo() *)
| GetProcessInfo (name_spec : string)          (* supervisor.getProcessInfo *)
| StopProcess (name_spec : string)             (* supervisor.stopProcess *)
| StartProcess (name_spec : string) (wait : bool)  (* supervisor.startProcess *)
| CheckCall (check_name : string) (process_spec : ProcessSpec)
| ListenerWait                                 (* childutils.listener.wait *)
| ListenerOk                                   (* childutils.listener.ok *)
| SignalInstall (sig : Z)                      (* signal.signal *)
| PoolCreate (max_workers : nat)               (* ThreadPoolExecutor(n) *)
| PoolSubmit (process_spec : ProcessSpec)      (* pool.submit *)
| WorkerBegin (process_spec : ProcessSpec)     (* a worker takes the task *)
| WorkerEnd (process_spec : ProcessSpec)       (* the task's future is set *)
| PoolShutdown.                                (* end of the with block *)

(** The collaborators of the runner over a world [W]: the clock, the stop
    event (written by the signal handler, which the interpreter runs
    asynchronously), the listener protocol and the four RPC methods.  Each
    call may change the world and may raise. *)
Class Environment (W : Type) := {
  datetime_now : W -> datetime;
  stop_event_is_set : W -> bool;
  stop_event_set : W -> W;
  listener_wait : W -> result Headers * W;
  rpc_getAllProcessInfo : W -> result (list ProcessSpec) * W;
  rpc_getProcessInfo : string -> W -> result ProcessSpec * W;
  rpc_stopProcess : string -> W -> result unit * W;
  rpc_startProcess : string -> bool -> W -> result unit * W
}.

(** A check object: its [NAME] attribute and its [__call__], which inspects
    a process descriptor and answers with a truth value or raises. *)
Record Check (W : Type) := mkCheck {
  NAME : string;
  call : ProcessSpec -> W -> result bool * W
}.
Arguments mkCheck {W}.
Arguments NAME {W}.
Arguments call {W}.

(** The fields of a [CheckRunner] instance the methods read. *)
Record CheckRunner (W : Type) := mkCheckRunner {
  _name : string;
  _process_group : string;
  _checks_config : string;        (* str(self._checks_config), for the log *)
  _checks : list (Check W)
}.
Arguments mkCheckRunner {W}.
Arguments _name {W}.
Arguments _process_group {W}.
Arguments _checks_config {W}.
Arguments _checks {W}.

(** ** The monad of the runner: world passing, exceptions, a trace *)

Section Monad.
Context {W : Type}.

Definition M (A : Type) : Type := W -> result A * W * list Event.

Definition ret {A} (a : A) : M A := fun w => (inr a, w, []).

Definition raise {A} (e : exn) : M A := fun w => (inl e, w, []).

Definition bind {A B} (m : M A) (f : A -> M B) : M B :=
  fun w =>
    match m w with
    | (inl e, w1, t1) => (inl e, w1, t1)
    | (inr a, w1, t1) =>
        match f a w1 with
        | (r, w2, t2) => (r, w2, t1 ++ t2)
        end
    end.

Definition emit (ev : Event) : M unit := fun w => (inr tt, w, [ev]).

(** An external call: the event is recorded, the environment answers. *)
Definition extern {A} (ev : Event) (f : W -> result A * W) : M A :=
  fun w => match f w with (r, w1) => (r, w1, [ev]) end.

(** [try: body / except cls as exc: handler exc]. *)
Definition try_except {A} (body : M A) (cls : exn_class)
    (handler : exn -> M A) : M A :=
  fun w =>
    match body w with
    | (inl e, w1, t1) =>
        if isinstance e cls then
          match handler e w1 with
          | (r, w2, t2) => (r, w2, t1 ++ t2)
          end
        else (inl e, w1, t1)
    | (inr a, w1, t1) => (inr a, w1, t1)
    end.
End Monad.
Arguments M : clear implicits.

Declare Scope runner_scope.
Delimit Scope runner_scope with runner.
Notation "'let*' x ':=' m 'in' k" := (bind m (fun x => k))
  (at level 10, x name, m at level 100, k at level 200) : runner_scope.
Notation "m '>>>' k" := (bind m (fun _ => k))
  (at level 90, right associativity) : runner_scope.
Local Open Scope runner_scope.

(** ** The methods of [CheckRunner] *)

Module signal.
Definition SIGHUP : Z := 1.
Definition SIGINT : Z := 2.
Definition SIGQUIT : Z := 3.
Definition SIGUSR1 : Z := 10.
Definition SIGTERM : Z := 15.
End signal.

(** How a pass through a loop body leaves it. *)
Inductive flow := Next | Leave.

Section Runner.
Context {W : Type} `{Environment W}.
Variable self : CheckRunner W.

(** [_log]: one timestamped line on STDERR, flushed at once.  Writing to
    STDERR (and, for the acknowledgement, to STDOUT) is taken to succeed. *)
Definition _log (msg : string) (args : list string) : M W unit :=
  fun w =>
    let curr_dt := strftime (datetime_now w) "%Y/%M/%d %H:%M:%S" in
    match pyformat msg args with
    | inl e => (inl e, w, [])
    | inr text =>
        match pyformat ("%s [%s] %s" +:+ LF) [curr_dt; _name self; text] with
        | inl e => (inl e, w, [])
        | inr line => (inr tt, w, [StderrWrite line; StderrFlush])
        end
    end.

(** [self._stop_event.is_set()]. *)
Definition is_set : M W bool := fun w => (inr (stop_event_is_set w), w, []).

(** [_signal_handler]. *)
Definition _signal_handler (signum : string) : M W unit :=
  _log "Got signal %s" [signum] >>>
  (fun w => (inr tt, stop_event_set w, [])).

(** [_install_signal_handlers]. *)
Definition _install_signal_handlers : M W unit :=
  _log "Installing signal handlers." [] >>>
  emit (SignalInstall signal.SIGINT) >>>
  emit (SignalInstall signal.SIGUSR1) >>>
  emit (SignalInstall signal.SIGHUP) >>>
  emit (SignalInstall signal.SIGTERM) >>>
  emit (SignalInstall signal.SIGQUIT).

(** [_get_process_spec_list]: the processes of the group, in the given
    state when one is given. *)
Definition _get_process_spec_list (st : option Z) : M W (list ProcessSpec) :=
  let* all := extern GetAllProcessInfo rpc_getAllProcessInfo in
  ret (List.filter
         (fun process_spec =>
            String.eqb (group process_spec) (_process_group self) &&
            match st with
            | None => true
            | Some s => Z.eqb (state process_spec) s
            end)
         all).

(** [_restart_process].  The state test [is ProcessStates.RUNNING]
    compares small integers, for which identity is equality. *)
Definition _restart_process (process_spec : ProcessSpec) : M W unit :=
  let name_spec := make_namespec (group process_spec) (name process_spec) in
  emit GetRPCInterface >>>
  let* process_spec :=
    extern (GetProcessInfo name_spec) (rpc_getProcessInfo name_spec) in
  if Z.eqb (state process_spec) ProcessStates.RUNNING then
    _log "Trying to stop process %s" [name_spec] >>>
    try_except
      (extern (StopProcess name_spec) (rpc_stopProcess name_spec) >>>
       _log "Stopped process %s" [name_spec])
      Fault
      (fun exc =>
         _log "Failed to stop process %s: %s" [name_spec; exn_str exc]) >>>
    try_except
      (_log "Starting process %s" [name_spec] >>>
       extern (StartProcess name_spec false)
              (rpc_startProcess name_spec false))
      Fault
      (fun exc =>
         _log "Failed to start process %s: %s" [name_spec; exn_str exc])
  else
    _log "%s not in RUNNING state, cannot restart" [name_spec].

(** The body of the [for check in self._checks] loop of
    [_check_and_restart]: [Leave] is the [return] after a restart. *)
Definition check_step (check : Check W) (process_spec : ProcessSpec)
    : M W flow :=
  _log "Performing %s check for process name %s"
       [NAME check; name process_spec] >>>
  try_except
    (let* ok := extern (CheckCall (NAME check) process_spec)
                       (call check process_spec) in
     if negb ok then
       _log "%s check failed for process %s. Trying to restart."
            [NAME check; name process_spec] >>>
       _restart_process process_spec >>>
       ret Leave
     else
       _log "%s check succeeded for process %s"
            [NAME check; name process_spec] >>>
       ret Next)
    Exception
    (fun exc =>
       _log "%s check raised error for process %s: %s"
            [NAME check; name process_spec; exn_str exc] >>>
       ret Next).

Fixpoint check_loop (checks : list (Check W)) (process_spec : ProcessSpec)
    : M W unit :=
  match checks with
  | [] => ret tt
  | check :: rest =>
      let* fl := check_step check process_spec in
      match fl with
      | Leave => ret tt
      | Next => check_loop rest process_spec
      end
  end.

(** [_check_and_restart]. *)
Definition _check_and_restart (process_spec : ProcessSpec) : M W unit :=
  check_loop (_checks self) process_spec.

(** A task run by a pool worker: whatever it returns or raises is stored
    in its future, which [_check_processes] never reads. *)
Definition worker_task (process_spec : ProcessSpec) : M W unit :=
  emit (WorkerBegin process_spec) >>>
  try_except (_check_and_restart process_spec) Exception (fun _ => ret tt) >>>
  emit (WorkerEnd process_spec).

Fixpoint foreach {A} (l : list A) (body : A -> M W unit) : M W unit :=
  match l with
  | [] => ret tt
  | x :: rest => body x >>> foreach rest body
  end.

(** [with ThreadPoolExecutor(max_workers) as pool: for p in process_specs:
    pool.submit(self._check_and_restart, p)].  Leaving the [with] block
    waits for every submitted task.  The workers are run here one after
    the other in submission order, which is one of the schedules of the
    pool ([serial_schedule]); all its schedules, with the tasks interleaved
    step by step, are the subject of [Module Pool]. *)
Definition with_ThreadPoolExecutor (max_workers : nat)
    (process_specs : list ProcessSpec) : M W unit :=
  emit (PoolCreate max_workers) >>>
  foreach process_specs (fun process_spec => emit (PoolSubmit process_spec)) >>>
  foreach process_specs worker_task >>>
  emit PoolShutdown.

(** [_check_processes]. *)
Definition _check_processes : M W unit :=
  let* process_specs := _get_process_spec_list (Some ProcessStates.RUNNING) in
  match process_specs with
  | [] =>
      _log "No processes in state RUNNING found for process group %s"
           [_process_group self]
  | [process_spec] => _check_and_restart process_spec
  | _ => with_ThreadPoolExecutor MAX_THREADS process_specs
  end.

(** [headers[EVENT_NAME_KEY]]. *)
Definition getitem (headers : Headers) (key : string) : M W string :=
  match headers !! key with
  | Some v => ret v
  | None => raise (mkExn KeyError key)
  end.

(** The body of the [while] loop of [run]: [Leave] is its [break]. *)
Definition run_step : M W flow :=
  let* waited :=
    try_except
      (let* headers := extern ListenerWait listener_wait in
       ret (Some headers))
      WaitInterrupted
      (fun _ =>
         _log "Health check for %s process group has been told to stop."
              [_process_group self] >>>
         ret None) in
  match waited with
  | None => ret Leave
  | Some headers =>
      let* event_type := getitem headers EVENT_NAME_KEY in
      (if bool_decide (event_type ∈ TICK_EVENTS) then _check_processes
       else _log "Received unsupported event type: %s" [event_type]) >>>
      emit ListenerOk >>>
      ret Next
  end.

(** How the loop stands after a bounded number of passes. *)
Inductive loop_state := Exited | Running.

(** [while not self._stop_event.is_set(): ...], unrolled [fuel] times. *)
Fixpoint run_loop (fuel : nat) : M W loop_state :=
  match fuel with
  | O => ret Running
  | S fuel' =>
      let* stop := is_set in
      if stop then ret Exited
      else
        let* fl := run_step in
        match fl with
        | Leave => ret Exited
        | Next => run_loop fuel'
        end
  end.

(** [run]. *)
Definition run (fuel : nat) : M W loop_state :=
  _log "Starting the health check for %s process group. Checks config: %s"
       [_process_group self; _checks_config self] >>>
  _install_signal_handlers >>>
  let* st := run_loop fuel in
  match st with
  | Exited => _log "Done." [] >>> ret Exited
  | Running => ret Running
  end.
End Runner.

(** ** The loop, pass by pass *)

Section Passes.
Context {W : Type} `{Environment W}.
Variable self : CheckRunner W.

(** The loop after [n] passes that went through to the acknowledgement:
    the world it stands in and what the passes emitted ([None] when the loop
    does not get that far). *)
Fixpoint after_passes (n : nat) (w : W) : option (W * list Event) :=
  match n with
  | O => Some (w, [])
  | S n' =>
      if stop_event_is_set w then None
      else
        match run_step self w with
        | (inr Next, w1, t1) =>
            match after_passes n' w1 with
            | Some (w2, t2) => Some (w2, t1 ++ t2)
            | None => None
            end
        | _ => None
        end
  end.
End Passes.


(** ** A scripted world

    An executable instance of [Environment]: every collaborator answers from
    a script of its own, one answer per call.  It serves to run the runner on
    concrete scenarios. *)
Module Sim.

Record World := mkWorld {
  now : datetime;
  stopped : bool;
  events : list (result Headers);
  all_info : list (result (list ProcessSpec));
  info : list (result ProcessSpec);
  stops : list (result unit);
  starts : list (result unit);
  verdicts : list (result bool)
}.

Definition wait (w : World) : result Headers * World :=
  match events w with
  | [] => (inl (mkExn WaitInterrupted ""), w)
  | r :: rest =>
      (r, mkWorld (now w) (stopped w) rest (all_info w) (info w) (stops w)
                  (starts w) (verdicts w))
  end.

Definition getAllProcessInfo (w : World)
    : result (list ProcessSpec) * World :=
  match all_info w with
  | [] => (inr [], w)
  | r :: rest =>
      (r, mkWorld (now w) (stopped w) (events w) rest (info w) (stops w)
                  (starts w) (verdicts w))
  end.

Definition getProcessInfo (_ : string) (w : World)
    : result ProcessSpec * World :=
  match info w with
  | [] => (inl (mkExn Fault "BAD_NAME"), w)
  | r :: rest =>
      (r, mkWorld (now w) (stopped w) (events w) (all_info w) rest (stops w)
                  (starts w) (verdicts w))
  end.

Definition stopProcess (_ : string) (w : World) : result unit * World :=
  match stops w with
  | [] => (inr tt, w)
  | r :: rest =>
      (r, mkWorld (now w) (stopped w) (events w) (all_info w) (info w) rest
                  (starts w) (verdicts w))
  end.

Definition startProcess (_ : string) (_ : bool) (w : World)
    : result unit * World :=
  match starts w with
  | [] => (inr tt, w)
  | r :: rest =>
      (r, mkWorld (now w) (stopped w) (events w) (all_info w) (info w)
                  (stops w) rest (verdicts w))
  end.

Definition set_stop (w : World) : World :=
  mkWorld (now w) true (events w) (all_info w) (info w) (stops w) (starts w)
          (verdicts w).

#[global] Instance environment : Environment World := {|
  datetime_now := now;
  stop_event_is_set := stopped;
  stop_event_set := set_stop;
  listener_wait := wait;
  rpc_getAllProcessInfo := getAllProcessInfo;
  rpc_getProcessInfo := getProcessInfo;
  rpc_stopProcess := stopProcess;
  rpc_startProcess := startProcess
|}.

(** A check whose successive verdicts come from the script. *)
Definition check (check_name : string) : Check World :=
  mkCheck check_name
    (fun _ w =>
       match verdicts w with
       | [] => (inr true, w)
       | r :: rest =>
           (r, mkWorld (now w) (stopped w) (events w) (all_info w) (info w)
                       (stops w) (starts w) rest)
       end).

(** A check with a fixed answer. *)
Definition const_check (check_name : string) (r : result bool) : Check World :=
  mkCheck check_name (fun _ w => (r, w)).

Definition clock : datetime := mkDatetime 2026 11 4 12 7 30.

Definition event (kind : string) : result Headers :=
  inr ({[ EVENT_NAME_KEY := kind ]} : Headers).

Definition fault (msg : string) : exn := mkExn Fault msg.

Definition web (process_name : string) (st : Z) : ProcessSpec :=
  mkProcessSpec process_name "web" st.

End Sim.


(** ** Reading a trace *)

(** The calls that act on a process. *)
Definition is_action (ev : Event) : bool :=
  match ev with
  | StopProcess _ | StartProcess _ _ => true
  | _ => false
  end.

Definition actions (t : list Event) : list Event := List.filter is_action t.

(** A restart transition opens with the re-fetch of the descriptor, and
    nothing else calls [getProcessInfo]. *)
Definition is_restart (ev : Event) : bool :=
  match ev with
  | GetProcessInfo _ => true
  | _ => false
  end.

Definition restart_attempts (t : list Event) : nat :=
  length (List.filter is_restart t).

(** The names of the checks that were evaluated, in order. *)
Fixpoint checks_run (t : list Event) : list string :=
  match t with
  | [] => []
  | CheckCall check_name _ :: t' => check_name :: checks_run t'
  | _ :: t' => checks_run t'
  end.

(** The events of the worker pool. *)
Definition is_pool_event (ev : Event) : bool :=
  match ev with
  | PoolCreate _ | PoolSubmit _ | WorkerBegin _ | WorkerEnd _
  | PoolShutdown => true
  | _ => false
  end.

(** The tasks whose future was set, in order. *)
Fixpoint completed (t : list Event) : list ProcessSpec :=
  match t with
  | [] => []
  | WorkerEnd process_spec :: t' => process_spec :: completed t'
  | _ :: t' => completed t'
  end.

Definition acknowledged (t : list Event) : bool :=
  existsb (fun ev => match ev with ListenerOk => true | _ => false end) t.

(** The filter of [_get_process_spec_list(ProcessStates.RUNNING)]. *)
Definition matches (process_group : string) (all : list ProcessSpec)
    : list ProcessSpec :=
  List.filter
    (fun process_spec =>
       String.eqb (group process_spec) process_group &&
       Z.eqb (state process_spec) ProcessStates.RUNNING)
    all.

Section LogLines.
Context {W : Type} `{Environment W}.
Variable self : CheckRunner W.

(** The line [_log] writes for an already formatted message. *)
Definition log_line (w : W) (text : string) : string :=
  strftime (datetime_now w) "%Y/%M/%d %H:%M:%S" +:+ " [" +:+ _name self +:+
  "] " +:+ text +:+ LF.

Definition log_events (w : W) (text : string) : list Event :=
  [StderrWrite (log_line w text); StderrFlush].

(** A computation that never raises. *)
Definition never_raises {A} (m : M W A) : Prop :=
  forall w, exists a, (m w).1.1 = inr a.

(** A computation all of whose events satisfy [P]. *)
Definition emits {A} (P : Event -> Prop) (m : M W A) : Prop :=
  forall w, Forall P (m w).2.

(** What [_restart_process] logs after the call of [stopProcess]. *)
Definition stop_outcome (name_spec : string) (w : W) (r : result unit)
    : list Event :=
  match r with
  | inr _ => log_events w ("Stopped process " +:+ name_spec)
  | inl e =>
      log_events w ("Failed to stop process " +:+ name_spec +:+ ": " +:+
                    exn_str e)
  end.

(** What [_restart_process] logs after the call of [startProcess]. *)
Definition start_outcome (name_spec : string) (w : W) (r : result unit)
    : list Event :=
  match r with
  | inr _ => []
  | inl e =>
      log_events w ("Failed to start process " +:+ name_spec +:+ ": " +:+
                    exn_str e)
  end.

(** What [run] emits before it enters the loop. *)
Definition startup_events (w : W) : list Event :=
  log_events w
    ("Starting the health check for " +:+ _process_group self +:+
     " process group. Checks config: " +:+ _checks_config self) ++
  log_events w "Installing signal handlers." ++
  [SignalInstall signal.SIGINT; SignalInstall signal.SIGUSR1;
   SignalInstall signal.SIGHUP; SignalInstall signal.SIGTERM;
   SignalInstall signal.SIGQUIT].
End LogLines.

(** The timestamp of a log line for the time [dt], field by field. *)
Definition timestamp (dt : datetime) : string :=
  four_digits (year dt) +:+ "/" +:+ two_digits (minute dt) +:+ "/" +:+
  two_digits (day dt) +:+ " " +:+ two_digits (hour dt) +:+ ":" +:+
  two_digits (minute dt) +:+ ":" +:+ two_digits (second dt).

(** An RPC call that returned or failed with a remote fault. *)
Definition returned_or_fault (r : result unit) : Prop :=
  match r with
  | inr _ => True
  | inl e => exn_cls e = Fault
  end.

(** The events of the runner proper: no pool event among them. *)
Definition plain (ev : Event) : Prop := is_pool_event ev = false.

(** ** The code of a worker as atomic steps

    A task of the pool shares the world with the other tasks, so what it
    does has to be cut into the steps between which another thread can run.
    A program is a tree of such steps: each step is one call to a
    collaborator (an RPC method, a check) or one log line, and the
    continuation receives what the call returned or raised. *)
Inductive Prog (W A : Type) : Type :=
| Finished (r : result A)
| Atomic {X : Type} (act : M W X) (k : result X -> Prog W A).
Arguments Finished {W A}.
Arguments Atomic {W A X}.

Declare Scope prog_scope.
Delimit Scope prog_scope with prog.

Module Steps.
Section Steps.
Context {W : Type} `{Environment W}.
Variable self : CheckRunner W.

Fixpoint bindP {A B} (m : Prog W A) (f : A -> Prog W B) : Prog W B :=
  match m with
  | Finished (inr a) => f a
  | Finished (inl e) => Finished (inl e)
  | Atomic act k => Atomic act (fun r => bindP (k r) f)
  end.

(** [try: body / except cls as exc: handler exc], step by step. *)
Fixpoint tryP {A} (body : Prog W A) (cls : exn_class)
    (handler : exn -> Prog W A) : Prog W A :=
  match body with
  | Finished (inl e) => if isinstance e cls then handler e else Finished (inl e)
  | Finished (inr a) => Finished (inr a)
  | Atomic act k => Atomic act (fun r => tryP (k r) cls handler)
  end.

(** One step: a computation that is not interrupted. *)
Definition atom {X} (m : M W X) : Prog W X := Atomic m Finished.

(** A program run alone, without another thread in between. *)
Fixpoint exec {A} (p : Prog W A) : M W A :=
  fun w =>
    match p with
    | Finished r => (r, w, [])
    | Atomic act k =>
        match act w with
        | (r, w1, t1) =>
            match exec (k r) w1 with
            | (r2, w2, t2) => (r2, w2, t1 ++ t2)
            end
        end
    end.

Local Notation "'let*' x ':=' m 'in' k" := (bindP m (fun x => k))
  (at level 10, x name, m at level 100, k at level 200) : prog_scope.
Local Notation "m '>>>' k" := (bindP m (fun _ => k))
  (at level 90, right associativity) : prog_scope.
Local Open Scope prog_scope.

(** [_restart_process], one step per RPC call and per log line. *)
Definition _restart_process (process_spec : ProcessSpec) : Prog W unit :=
  let name_spec := make_namespec (group process_spec) (name process_spec) in
  atom (emit GetRPCInterface) >>>
  let* process_spec :=
    atom (extern (GetProcessInfo name_spec) (rpc_getProcessInfo name_spec)) in
  if Z.eqb (state process_spec) ProcessStates.RUNNING then
    atom (_log self "Trying to stop process %s" [name_spec]) >>>
    tryP
      (atom (extern (StopProcess name_spec) (rpc_stopProcess name_spec)) >>>
       atom (_log self "Stopped process %s" [name_spec]))
      Fault
      (fun exc =>
         atom (_log self "Failed to stop process %s: %s"
                    [name_spec; exn_str exc])) >>>
    tryP
      (atom (_log self "Starting process %s" [name_spec]) >>>
       atom (extern (StartProcess name_spec false)
                    (rpc_startProcess name_spec false)))
      Fault
      (fun exc =>
         atom (_log self "Failed to start process %s: %s"
                    [name_spec; exn_str exc]))
  else
    atom (_log self "%s not in RUNNING state, cannot restart" [name_spec]).

(** The body of the loop of [_check_and_restart]. *)
Definition check_step (check : Check W) (process_spec : ProcessSpec)
    : Prog W flow :=
  atom (_log self "Performing %s check for process name %s"
             [NAME check; name process_spec]) >>>
  tryP
    (let* ok := atom (extern (CheckCall (NAME check) process_spec)
                             (call check process_spec)) in
     if negb ok then
       atom (_log self "%s check failed for process %s. Trying to restart."
                  [NAME check; name process_spec]) >>>
       _restart_process process_spec >>>
       Finished (inr Leave)
     else
       atom (_log self "%s check succeeded for process %s"
                  [NAME check; name process_spec]) >>>
       Finished (inr Next))
    Exception
    (fun exc =>
       atom (_log self "%s check raised error for process %s: %s"
                  [NAME check; name process_spec; exn_str exc]) >>>
       Finished (inr Next)).

Fixpoint check_loop (checks : list (Check W)) (process_spec : ProcessSpec)
    : Prog W unit :=
  match checks with
  | [] => Finished (inr tt)
  | check :: rest =>
      let* fl := check_step check process_spec in
      match fl with
      | Leave => Finished (inr tt)
      | Next => check_loop rest process_spec
      end
  end.

(** [_check_and_restart]. *)
Definition _check_and_restart (process_spec : ProcessSpec) : Prog W unit :=
  check_loop (_checks self) process_spec.

(** [log] is what a program has emitted on its way from [p] to [q], at the
    worlds it happened to find. *)
Inductive runs_to {A} : Prog W A -> list Event -> Prog W A -> Prop :=
| runs_here p : runs_to p [] p
| runs_on {X} (act : M W X) k w r w' evs log q :
    act w = (r, w', evs) ->
    runs_to (k r) log q ->
    runs_to (Atomic act k) (evs ++ log) q.

(** A program none of whose steps emits an event of the pool. *)
Inductive plain_prog {A} : Prog W A -> Prop :=
| plain_finished r : plain_prog (Finished r)
| plain_atomic {X} (act : M W X) k :
    emits plain act ->
    (forall r, plain_prog (k r)) ->
    plain_prog (Atomic act k).

End Steps.
End Steps.

(** ** Reading a trace: the pool *)

Definition is_begin (ev : Event) : bool :=
  match ev with WorkerBegin _ => true | _ => false end.

Definition is_end (ev : Event) : bool :=
  match ev with WorkerEnd _ => true | _ => false end.

(** The tasks a worker has taken up, and those whose future is set. *)
Definition begun (t : list Event) : nat := length (List.filter is_begin t).
Definition ended (t : list Event) : nat := length (List.filter is_end t).

(** The processes submitted to the pool, in order. *)
Fixpoint submitted (t : list Event) : list ProcessSpec :=
  match t with
  | [] => []
  | PoolSubmit process_spec :: t' => process_spec :: submitted t'
  | _ :: t' => submitted t'
  end.

(** The sizes given to the pools that were created. *)
Fixpoint pool_sizes (t : list Event) : list nat :=
  match t with
  | [] => []
  | PoolCreate n :: t' => n :: pool_sizes t'
  | _ :: t' => pool_sizes t'
  end.

(** ** The thread pool

    [concurrent.futures.ThreadPoolExecutor] as [_check_processes] uses it,
    with the threads interleaved step by step on the shared world.  The
    [with] block submits the tasks one by one; a submission starts a worker
    thread while fewer than [max_workers] exist (or, when a thread is idle,
    may reuse it); a thread with nothing to do takes the oldest queued task
    and runs [_check_and_restart] on it; the tasks in flight advance one
    step at a time in any order; what a task returns or raises is stored in
    its future; the [with] block is left only when nothing is queued or in
    flight. *)
Module Pool.
Section Pool.
Context {W : Type} `{Environment W}.
Variable self : CheckRunner W.

(** A task in a worker's hands: the process, what is left to run, and what
    the task has emitted so far. *)
Record task := mkTask {
  task_spec : ProcessSpec;
  task_prog : Prog W unit;
  task_log : list Event
}.

Record state := mkState {
  max_workers : nat;
  pending : list ProcessSpec;      (* submissions still to be made *)
  work_queue : list ProcessSpec;   (* submitted, not yet taken *)
  in_flight : list task;           (* being executed by a worker *)
  finished : list task;            (* future set *)
  threads : nat;                   (* worker threads started so far *)
  closed : bool;                   (* the with block has been left *)
  world : W;
  trace : list Event
}.

Definition init (n : nat) (tasks : list ProcessSpec) (w : W) : state :=
  mkState n tasks [] [] [] 0 false w [PoolCreate n].

Inductive step : state -> state -> Prop :=
| submit_spawn n p u q f d th w t :
    (th < n)%nat ->
    step (mkState n (p :: u) q f d th false w t)
         (mkState n u (q ++ [p]) f d (S th) false w (t ++ [PoolSubmit p]))
| submit_reuse n p u q f d th w t :
    th = n \/ (length f < th)%nat ->
    step (mkState n (p :: u) q f d th false w t)
         (mkState n u (q ++ [p]) f d th false w (t ++ [PoolSubmit p]))
| take n u p q f d th c w t :
    (length f < th)%nat ->
    step (mkState n u (p :: q) f d th c w t)
         (mkState n u q
            (f ++ [mkTask p (Steps._check_and_restart self p) []])
            d th c w (t ++ [WorkerBegin p]))
| work n u q f1 p {X} (act : M W X) k log f2 d th c w t r w' evs :
    act w = (r, w', evs) ->
    step (mkState n u q (f1 ++ mkTask p (Atomic act k) log :: f2) d th c w t)
         (mkState n u q (f1 ++ mkTask p (k r) (log ++ evs) :: f2) d th c w'
            (t ++ evs))
| finish n u q f1 p r log f2 d th c w t :
    step (mkState n u q (f1 ++ mkTask p (Finished r) log :: f2) d th c w t)
         (mkState n u q (f1 ++ f2) (d ++ [mkTask p (Finished r) log]) th c w
            (t ++ [WorkerEnd p]))
| leave n d th w t :
    step (mkState n [] [] [] d th false w t)
         (mkState n [] [] [] d th true w (t ++ [PoolShutdown])).

(** A task in flight or finished is an invocation of [_check_and_restart]
    on its process, advanced by the steps recorded in its log. *)
Definition invocation (tk : task) : Prop :=
  Steps.runs_to (Steps._check_and_restart self (task_spec tk))
                (task_log tk) (task_prog tk).

(** What holds of every state of a pool of [n] workers given [tasks]. *)
Definition invariant (n : nat) (tasks : list ProcessSpec) (s : state) : Prop :=
  max_workers s = n /\
  (threads s <= n)%nat /\
  (threads s + length (pending s) <= length tasks)%nat /\
  (length (in_flight s) <= threads s)%nat /\
  submitted (trace s) ++ pending s = tasks /\
  pending s ++ work_queue s ++ (task_spec <$> in_flight s) ++
    (task_spec <$> finished s) ≡ₚ tasks /\
  begun (trace s) = (ended (trace s) + length (in_flight s))%nat /\
  completed (trace s) = task_spec <$> finished s /\
  pool_sizes (trace s) = [n] /\
  Forall (fun tk => Steps.plain_prog (task_prog tk) /\ invocation tk)
         (in_flight s) /\
  Forall (fun tk => (exists r, task_prog tk = Finished r) /\ invocation tk)
         (finished s) /\
  (closed s = true ->
   pending s = [] /\ work_queue s = [] /\ in_flight s = [] /\
   last (trace s) = Some PoolShutdown).

End Pool.
End Pool.


(** ** Reading a trace, continued *)

(** The qualified name under which a process is addressed. *)
Definition namespec_of (process_spec : ProcessSpec) : string :=
  make_namespec (group process_spec) (name process_spec).

(** The event concerns only processes that satisfy [ok]: a check is
    evaluated on such a descriptor, an RPC call addresses such a process,
    and a start is issued with the wait flag off. *)
Definition within (ok : ProcessSpec -> Prop) (ev : Event) : Prop :=
  match ev with
  | CheckCall _ process_spec => ok process_spec
  | GetProcessInfo name_spec | StopProcess name_spec =>
      exists p, ok p /\ name_spec = namespec_of p
  | StartProcess name_spec wait =>
      wait = false /\ exists p, ok p /\ name_spec = namespec_of p
  | _ => True
  end.

Definition is_wait (ev : Event) : bool :=
  match ev with ListenerWait => true | _ => false end.

Definition is_ok (ev : Event) : bool :=
  match ev with ListenerOk => true | _ => false end.

Definition is_enumeration (ev : Event) : bool :=
  match ev with GetAllProcessInfo => true | _ => false end.

(** How often the loop waited for an event, and how often it acknowledged
    one. *)
Definition waits (t : list Event) : nat := length (List.filter is_wait t).
Definition acks (t : list Event) : nat := length (List.filter is_ok t).

Definition enumerations (t : list Event) : nat :=
  length (List.filter is_enumeration t).

(** The events that checking and restarting processes can emit: all but
    the enumeration, the listener protocol and the signal set-up. *)
Definition worker_event (ev : Event) : Prop :=
  match ev with
  | GetAllProcessInfo | ListenerWait | ListenerOk | SignalInstall _ => False
  | _ => True
  end.

Definition no_check (ev : Event) : Prop :=
  match ev with CheckCall _ _ => False | _ => True end.


(** ** Scenarios

    Concrete runs of the runner in the scripted world. *)
Module Scenario.
Import Sim.

Definition world events all_info info stops starts verdicts : World :=
  mkWorld clock false events all_info info stops starts verdicts.

(** Nothing scripted: every collaborator gives its default answer. *)
Definition quiet : World := world [] [] [] [] [] [].

Definition web_a : ProcessSpec := web "a" ProcessStates.RUNNING.
Definition web_b : ProcessSpec := web "b" ProcessStates.RUNNING.
Definition web_c : ProcessSpec := web "c" ProcessStates.RUNNING.
Definition db_x : ProcessSpec :=
  mkProcessSpec "x" "db" ProcessStates.RUNNING.

(** A runner for the group [web] with one scripted check. *)
Definition hc : CheckRunner World :=
  mkCheckRunner "hc" "web" "[http]" [check "http"].

(** A tick arrives while the supervisor does not answer. *)
Definition unreachable : World :=
  world [event "TICK_60"] [inl (fault "down")] [] [] [] [].

(** A tick for one process whose check raises. *)
Definition raising : World :=
  world [event "TICK_5"] [inr [web_a]] [] [] []
        [inl (mkExn Exception "timed out")].

(** Checks A (passes), B and C (fail). *)
Definition abc : CheckRunner World :=
  mkCheckRunner "hc" "web" "[A, B, C]"
    [const_check "A" (inr true); const_check "B" (inr false);
     const_check "C" (inr false)].

(** [getProcessInfo] fails once with a fault, then answers. *)
Definition flaky : World :=
  world [] [] [inl (fault "BAD_NAME"); inr web_a] [] [] [].

(** The first [startProcess] ends with an error that is not a fault (the
    connection is lost while the process comes up). *)
Definition dropped : World :=
  world [] [] [inr web_a; inr web_a] []
        [inl (mkExn Exception "timed out")] [].

(** The process left RUNNING between the enumeration and the restart. *)
Definition stale : World :=
  world [] [] [inr (web "a" ProcessStates.STOPPING)] [] [] [].

(** Both [stopProcess] and [startProcess] fail with a fault. *)
Definition racing : World :=
  world [] [] [inr web_a] [inl (fault "NOT_RUNNING")]
        [inl (fault "ALREADY_STARTED")] [].

(** A check that raises, followed by one that passes. *)
Definition broken_first : CheckRunner World :=
  mkCheckRunner "hc" "web" "[A, B]"
    [const_check "A" (inl (mkExn Exception "boom"));
     const_check "B" (inr true)].

Definition three_procs : list ProcessSpec := [web_a; db_x; web_b; web_c].

Definition busy : World := world [] [inr three_procs] [] [] [] [].

Definition other_groups : list ProcessSpec :=
  [db_x; web "a" ProcessStates.STOPPED].

Definition idle : World := world [] [inr other_groups] [] [] [] [].

Definition state_change : Headers :=
  {[ EVENT_NAME_KEY := "PROCESS_STATE_EXITED" ]}.

Definition foreign : World := world [inr state_change] [] [] [] [] [].

Definition no_kind : Headers := {[ "len" := "0" ]}.

Definition headless : World := world [inr no_kind] [] [] [] [] [].

(** What the restart does in [stale]. *)
Definition stale_outcome : result unit * World * list Event :=
  Eval vm_compute in _restart_process hc web_a stale.

Definition tick_60 : Headers := {[ EVENT_NAME_KEY := "TICK_60" ]}.
Definition tick_5 : Headers := {[ EVENT_NAME_KEY := "TICK_5" ]}.

(** The stop event is set before [run] starts. *)
Definition halted : World := mkWorld clock true [] [] [] [] [] [].

(** The wait fails with an error of its own. *)
Definition broken_pipe : World :=
  world [inl (mkExn Exception "EOF")] [] [] [] [] [].

(** What the restart does in [dropped]. *)
Definition dropped_outcome : result unit * World * list Event :=
  Eval vm_compute in _restart_process hc web_a dropped.

(** An event of another kind, then a header block without [eventname]. *)
Definition late_headless : World :=
  world [inr state_change; inr no_kind] [] [] [] [] [].

(** A tick that goes through (the check raises), then a tick for which
    the supervisor does not answer. *)
Definition late_unreachable : World :=
  world [event "TICK_5"; event "TICK_60"]
        [inr [web_a]; inl (fault "down")] [] [] []
        [inl (mkExn Exception "timed out")].

(** An event of another kind, then the wait fails with an error of its
    own. *)
Definition late_broken_pipe : World :=
  world [inr state_change; inl (mkExn Exception "EOF")] [] [] [] [] [].

End Scenario.


(** * Properties *)

(** ** Formatting the log messages *)

Lemma append_nil_r (s : string) : s +:+ "" = s.
Proof.
  induction s as [|c s IH]; [reflexivity |].
  change (String c (s +:+ "") = String c s). by rewrite IH.
Qed.

Ltac solve_fmt := intros; simpl; rewrite ?append_nil_r; reflexivity.

Lemma fmt_starting g c :
  pyformat "Starting the health check for %s process group. Checks config: %s"
           [g; c]
  = inr ("Starting the health check for " +:+ g +:+
         " process group. Checks config: " +:+ c).
Proof. solve_fmt. Qed.

Lemma fmt_installing :
  pyformat "Installing signal handlers." [] = inr "Installing signal handlers.".
Proof. solve_fmt. Qed.

Lemma fmt_told_to_stop g :
  pyformat "Health check for %s process group has been told to stop." [g]
  = inr ("Health check for " +:+ g +:+
         " process group has been told to stop.").
Proof. solve_fmt. Qed.

Lemma fmt_unsupported k :
  pyformat "Received unsupported event type: %s" [k]
  = inr ("Received unsupported event type: " +:+ k).
Proof. solve_fmt. Qed.

Lemma fmt_done : pyformat "Done." [] = inr "Done.".
Proof. solve_fmt. Qed.

Lemma fmt_no_processes g :
  pyformat "No processes in state RUNNING found for process group %s" [g]
  = inr ("No processes in state RUNNING found for process group " +:+ g).
Proof. solve_fmt. Qed.

Lemma fmt_performing c p :
  pyformat "Performing %s check for process name %s" [c; p]
  = inr ("Performing " +:+ c +:+ " check for process name " +:+ p).
Proof. solve_fmt. Qed.

Lemma fmt_failed c p :
  pyformat "%s check failed for process %s. Trying to restart." [c; p]
  = inr (c +:+ " check failed for process " +:+ p +:+ ". Trying to restart.").
Proof. solve_fmt. Qed.

Lemma fmt_succeeded c p :
  pyformat "%s check succeeded for process %s" [c; p]
  = inr (c +:+ " check succeeded for process " +:+ p).
Proof. solve_fmt. Qed.

Lemma fmt_raised c p e :
  pyformat "%s check raised error for process %s: %s" [c; p; e]
  = inr (c +:+ " check raised error for process " +:+ p +:+ ": " +:+ e).
Proof. solve_fmt. Qed.

Lemma fmt_trying_to_stop ns :
  pyformat "Trying to stop process %s" [ns]
  = inr ("Trying to stop process " +:+ ns).
Proof. solve_fmt. Qed.

Lemma fmt_stopped ns :
  pyformat "Stopped process %s" [ns] = inr ("Stopped process " +:+ ns).
Proof. solve_fmt. Qed.

Lemma fmt_stop_failed ns e :
  pyformat "Failed to stop process %s: %s" [ns; e]
  = inr ("Failed to stop process " +:+ ns +:+ ": " +:+ e).
Proof. solve_fmt. Qed.

Lemma fmt_starting_process ns :
  pyformat "Starting process %s" [ns] = inr ("Starting process " +:+ ns).
Proof. solve_fmt. Qed.

Lemma fmt_start_failed ns e :
  pyformat "Failed to start process %s: %s" [ns; e]
  = inr ("Failed to start process " +:+ ns +:+ ": " +:+ e).
Proof. solve_fmt. Qed.

Lemma fmt_not_running ns :
  pyformat "%s not in RUNNING state, cannot restart" [ns]
  = inr (ns +:+ " not in RUNNING state, cannot restart").
Proof. solve_fmt. Qed.

Create HintDb fmt.
#[export] Hint Resolve fmt_starting fmt_installing fmt_told_to_stop
  fmt_unsupported fmt_done fmt_no_processes fmt_performing fmt_failed
  fmt_succeeded fmt_raised fmt_trying_to_stop fmt_stopped fmt_stop_failed
  fmt_starting_process fmt_start_failed fmt_not_running : fmt.

(** ** The logger *)

Section Logger.
Context {W : Type} `{Environment W}.
Variable self : CheckRunner W.

Lemma _log_eq msg args text w :
  pyformat msg args = inr text ->
  _log self msg args w = (inr tt, w, log_events self w text).
Proof.
  intros Hf. unfold _log, log_events, log_line. rewrite Hf.
  generalize (strftime (datetime_now w) "%Y/%M/%d %H:%M:%S"). intros s.
  reflexivity.
Qed.

End Logger.

(** Run the monadic code as far as the facts at hand allow. *)
Ltac mrun :=
  repeat first
    [ progress unfold bind, ret, raise, emit, extern, try_except
    | progress cbn [isinstance exn_class_eqb exn_cls app negb]
    | erewrite _log_eq by (solve [auto with fmt nocore])
    | match goal with H : ?f = (_, _) |- context [?f] => rewrite H end ].

(** ** Never raising, and the kinds of events emitted *)

Section Combinators.
Context {W : Type} `{Environment W}.
Variable self : CheckRunner W.

Lemma never_raises_ret {A} (a : A) : never_raises (W:=W) (ret a).
Proof. intros w. by exists a. Qed.

Lemma never_raises_emit ev : never_raises (W:=W) (emit ev).
Proof. intros w. by exists tt. Qed.

Lemma never_raises_log msg args text :
  pyformat msg args = inr text -> never_raises (_log self msg args).
Proof. intros Hf w. exists tt. by rewrite (_log_eq self _ _ _ w Hf). Qed.

Lemma never_raises_bind {A B} (m : M W A) (f : A -> M W B) :
  never_raises m -> (forall a, never_raises (f a)) -> never_raises (bind m f).
Proof.
  intros Hm Hf w. unfold bind. destruct (Hm w) as [a Ha].
  destruct (m w) as [[r w1] t1]. simpl in Ha. subst r.
  destruct (Hf a w1) as [b Hb]. destruct (f a w1) as [[r w2] t2].
  simpl in Hb. subst r. by exists b.
Qed.

Lemma never_raises_try {A} (body : M W A) (handler : exn -> M W A) :
  (forall e, never_raises (handler e)) ->
  never_raises (try_except body Exception handler).
Proof.
  intros Hh w. unfold try_except. destruct (body w) as [[[e|a] w1] t1].
  - cbn [isinstance]. destruct (Hh e w1) as [b Hb].
    destruct (handler e w1) as [[r w2] t2]. simpl in Hb. subst r. by exists b.
  - by exists a.
Qed.

Lemma emits_ret {A} P (a : A) : emits (W:=W) P (ret a).
Proof. intros w. constructor. Qed.

Lemma emits_emit (P : Event -> Prop) ev : P ev -> emits (W:=W) P (emit ev).
Proof. intros Hev w. by repeat constructor. Qed.

Lemma emits_extern {A} (P : Event -> Prop) ev (f : W -> result A * W) :
  P ev -> emits P (extern ev f).
Proof.
  intros Hev w. unfold extern. destruct (f w) as [r w1]. by repeat constructor.
Qed.

Lemma emits_log (P : Event -> Prop) msg args :
  (forall line, P (StderrWrite line)) -> P StderrFlush ->
  emits P (_log self msg args).
Proof.
  intros Hw Hf w. unfold _log. destruct (pyformat msg args); [constructor |].
  destruct (pyformat _ _); by repeat constructor.
Qed.

Lemma emits_bind {A B} P (m : M W A) (f : A -> M W B) :
  emits P m -> (forall a, emits P (f a)) -> emits P (bind m f).
Proof.
  intros Hm Hf w. unfold bind. specialize (Hm w).
  destruct (m w) as [[[e|a] w1] t1]; [exact Hm |].
  specialize (Hf a w1). destruct (f a w1) as [[r w2] t2].
  apply Forall_app. by split.
Qed.

Lemma emits_try {A} P (body : M W A) cls (handler : exn -> M W A) :
  emits P body -> (forall e, emits P (handler e)) ->
  emits P (try_except body cls handler).
Proof.
  intros Hb Hh w. unfold try_except. specialize (Hb w).
  destruct (body w) as [[[e|a] w1] t1]; [| exact Hb].
  destruct (isinstance e cls); [| exact Hb].
  specialize (Hh e w1). destruct (handler e w1) as [[r w2] t2].
  apply Forall_app. by split.
Qed.

Lemma restart_plain p : emits plain (_restart_process self p).
Proof.
  unfold _restart_process.
  repeat first
    [ apply emits_bind; [| intros ?]
    | apply emits_try; [| intros ?]
    | apply emits_emit; reflexivity
    | apply emits_extern; reflexivity
    | apply emits_log; [intros ?; reflexivity | reflexivity]
    | apply emits_ret
    | match goal with |- emits _ (if ?b then _ else _) => destruct b end ].
Qed.

Lemma check_step_plain c p : emits plain (check_step self c p).
Proof.
  unfold check_step.
  repeat first
    [ apply emits_bind; [| intros ?]
    | apply emits_try; [| intros ?]
    | apply restart_plain
    | apply emits_emit; reflexivity
    | apply emits_extern; reflexivity
    | apply emits_log; [intros ?; reflexivity | reflexivity]
    | apply emits_ret
    | match goal with |- emits _ (if ?b then _ else _) => destruct b end ].
Qed.

Lemma check_loop_plain cs p : emits plain (check_loop self cs p).
Proof.
  induction cs as [|c cs IH]; simpl; [apply emits_ret |].
  apply emits_bind; [apply check_step_plain |].
  intros [|]; [exact IH | apply emits_ret].
Qed.

Lemma check_step_never_raises c p : never_raises (check_step self c p).
Proof.
  unfold check_step. apply never_raises_bind.
  - eapply never_raises_log. apply fmt_performing.
  - intros _. apply never_raises_try. intros e. apply never_raises_bind.
    + eapply never_raises_log. apply fmt_raised.
    + intros _. apply never_raises_ret.
Qed.

Lemma check_loop_never_raises cs p : never_raises (check_loop self cs p).
Proof.
  induction cs as [|c cs IH]; simpl; [apply never_raises_ret |].
  apply never_raises_bind; [apply check_step_never_raises |].
  intros [|]; [exact IH | apply never_raises_ret].
Qed.

End Combinators.

(** ** Enumeration, workers and the pool *)

Section Dispatch.
Context {W : Type} `{Environment W}.
Variable self : CheckRunner W.

Lemma completed_app t1 t2 : completed (t1 ++ t2) = completed t1 ++ completed t2.
Proof.
  induction t1 as [|ev t1 IH]; [reflexivity |].
  destruct ev; simpl; rewrite ?IH; reflexivity.
Qed.

Lemma completed_plain t : Forall plain t -> completed t = [].
Proof.
  induction 1 as [|ev t Hev _ IH]; [reflexivity |].
  destruct ev; simpl; try exact IH. discriminate Hev.
Qed.

Lemma submit_all ps w :
  foreach (W:=W) ps (fun p => emit (PoolSubmit p)) w =
    (inr tt, w, PoolSubmit <$> ps).
Proof.
  induction ps as [|p ps IH]; [reflexivity |].
  cbn [foreach]. unfold bind. unfold emit at 1. cbn beta iota. by rewrite IH.
Qed.

Lemma worker_task_runs p w :
  exists w' t,
    worker_task self p w = (inr tt, w', WorkerBegin p :: t ++ [WorkerEnd p]) /\
    Forall plain t.
Proof.
  unfold worker_task, _check_and_restart.
  pose proof (check_loop_never_raises self (_checks self) p w) as [[] Hok].
  pose proof (check_loop_plain self (_checks self) p w) as Hpl.
  destruct (check_loop self (_checks self) p w) as [[r w1] t1] eqn:Hrun.
  simpl in Hok, Hpl. subst r. exists w1, t1. split; [| exact Hpl].
  mrun. reflexivity.
Qed.

Lemma workers_run ps w :
  exists w' t, foreach ps (worker_task self) w = (inr tt, w', t).
Proof.
  revert w. induction ps as [|p ps IH]; intros w.
  - by exists w, [].
  - destruct (worker_task_runs p w) as (w1 & t1 & Hrun & _).
    destruct (IH w1) as (w2 & t2 & Hrest).
    exists w2, ((WorkerBegin p :: t1 ++ [WorkerEnd p]) ++ t2).
    simpl foreach. unfold bind. rewrite Hrun, Hrest. reflexivity.
Qed.

Lemma pool_runs n ps w :
  exists w' t, with_ThreadPoolExecutor self n ps w = (inr tt, w', t).
Proof.
  destruct (workers_run ps w) as (w' & t & Hrun).
  eexists w', _.
  unfold with_ThreadPoolExecutor. unfold bind at 1 2. unfold emit at 1.
  rewrite submit_all. unfold bind. rewrite Hrun. unfold emit.
  reflexivity.
Qed.

Lemma enumerate w procs w1 :
  rpc_getAllProcessInfo w = (inr procs, w1) ->
  _get_process_spec_list self (Some ProcessStates.RUNNING) w =
    (inr (matches (_process_group self) procs), w1, [GetAllProcessInfo]).
Proof. intros Hall. unfold _get_process_spec_list. mrun. reflexivity. Qed.

Lemma enumerate_fault w e w1 :
  rpc_getAllProcessInfo w = (inl e, w1) ->
  _check_processes self w = (inl e, w1, [GetAllProcessInfo]).
Proof.
  intros Hall. unfold _check_processes, _get_process_spec_list. mrun.
  reflexivity.
Qed.

Lemma check_and_restart_returns p w :
  exists w' t, _check_and_restart self p w = (inr tt, w', t) /\ Forall plain t.
Proof.
  unfold _check_and_restart.
  pose proof (check_loop_never_raises self (_checks self) p w) as [[] Hok].
  pose proof (check_loop_plain self (_checks self) p w) as Hpl.
  destruct (check_loop self (_checks self) p w) as [[r w1] t1].
  simpl in Hok, Hpl. subst r. by exists w1, t1.
Qed.

Lemma check_processes_returns w procs w1 :
  rpc_getAllProcessInfo w = (inr procs, w1) ->
  exists w' t, _check_processes self w = (inr tt, w', t).
Proof.
  intros Hall. unfold _check_processes. unfold bind at 1.
  rewrite (enumerate w procs w1 Hall).
  destruct (matches (_process_group self) procs) as [|p1 [|p2 ps]].
  - mrun. eauto.
  - destruct (check_and_restart_returns p1 w1) as (w' & t & -> & _). eauto.
  - destruct (pool_runs MAX_THREADS (p1 :: p2 :: ps) w1) as (w' & t & ->).
    eauto.
Qed.

(** ** The dispatcher *)

(** C7: when no process of the group is RUNNING, the cycle enumerates, logs
    the "no processes" line and returns normally; it calls neither
    [stopProcess] nor [startProcess]. *)
Theorem no_match_is_a_noop w procs w1 :
  rpc_getAllProcessInfo w = (inr procs, w1) ->
  matches (_process_group self) procs = [] ->
  let t := GetAllProcessInfo ::
             log_events self w1
               ("No processes in state RUNNING found for process group " +:+
                _process_group self) in
  _check_processes self w = (inr tt, w1, t) /\ actions t = [].
Proof.
  intros Hall Hnone t. split; [| reflexivity].
  unfold _check_processes. unfold bind at 1.
  rewrite (enumerate w procs w1 Hall), Hnone. mrun. reflexivity.
Qed.

End Dispatch.

Section Claims.
Context {W : Type} `{Environment W}.
Variable self : CheckRunner W.

(** ** The restart transition *)

(** C3: [stopProcess] and [startProcess] are called only when the
    descriptor that [getProcessInfo] returns at restart time is RUNNING,
    whatever the descriptor from the enumeration says; when the descriptor
    fetched afresh is not RUNNING, the restart logs that and does nothing
    else. *)
Theorem restart_acts_only_on_fresh_running process_spec w r w' t :
  let name_spec := make_namespec (group process_spec) (name process_spec) in
  _restart_process self process_spec w = (r, w', t) ->
  (actions t <> [] ->
   exists fresh w1,
     rpc_getProcessInfo name_spec w = (inr fresh, w1) /\
     state fresh = ProcessStates.RUNNING) /\
  (forall fresh w1,
     rpc_getProcessInfo name_spec w = (inr fresh, w1) ->
     state fresh <> ProcessStates.RUNNING ->
     r = inr tt /\ w' = w1 /\
     t = [GetRPCInterface; GetProcessInfo name_spec] ++
         log_events self w1
           (name_spec +:+ " not in RUNNING state, cannot restart")).
Proof.
  intros ns. unfold _restart_process. fold ns.
  destruct (rpc_getProcessInfo ns w) as [[e|fresh] w1] eqn:Hinfo; mrun.
  - intros [= <- <- <-]. split; [by intros [] | intros ? ? [=]].
  - destruct (state fresh =? ProcessStates.RUNNING) eqn:Hst.
    + apply Z.eqb_eq in Hst. intros _. split; [by exists fresh, w1 |].
      intros ? ? [= <- <-] Hne. by destruct Hne.
    + apply Z.eqb_neq in Hst. mrun. intros [= <- <- <-].
      split; [by intros [] |]. by intros ? ? [= <- <-] _.
Qed.

(** C6: with the descriptor fetched afresh RUNNING, a remote fault of
    [stopProcess] is logged and [startProcess] is still called, with the
    wait flag off; a remote fault of [startProcess] is logged; in every such
    case the restart returns normally. *)
Theorem restart_tolerates_faults process_spec w fresh w1 rs w2 rt w3 :
  let name_spec := make_namespec (group process_spec) (name process_spec) in
  rpc_getProcessInfo name_spec w = (inr fresh, w1) ->
  state fresh = ProcessStates.RUNNING ->
  rpc_stopProcess name_spec w1 = (rs, w2) -> returned_or_fault rs ->
  rpc_startProcess name_spec false w2 = (rt, w3) -> returned_or_fault rt ->
  _restart_process self process_spec w =
    (inr tt, w3,
     [GetRPCInterface; GetProcessInfo name_spec] ++
     log_events self w1 ("Trying to stop process " +:+ name_spec) ++
     [StopProcess name_spec] ++ stop_outcome self name_spec w2 rs ++
     log_events self w2 ("Starting process " +:+ name_spec) ++
     [StartProcess name_spec false] ++ start_outcome self name_spec w3 rt).
Proof.
  intros ns Hinfo Hrun Hstop Hrs Hstart Hrt.
  unfold _restart_process. fold ns. mrun. rewrite Hrun.
  cbn [Z.eqb ProcessStates.RUNNING Pos.eqb]. mrun.
  destruct rs as [e|[]], rt as [e'|[]]; simpl in Hrs, Hrt; mrun;
    rewrite ?Hrs; mrun; rewrite ?Hrt; mrun; rewrite <- ?app_assoc;
    reflexivity.
Qed.

(** ** The checks of one process *)

(** C5: a check that raises is caught where it is called: the error is
    logged with the name of the check and of the process, no restart is
    attempted for it, and the loop goes on with the next check. *)
Theorem check_error_is_skipped check rest process_spec w e w1 :
  call check process_spec w = (inl e, w1) ->
  check_loop self (check :: rest) process_spec w =
    (let '(r, w2, t) := check_loop self rest process_spec w1 in
     (r, w2,
      log_events self w
        ("Performing " +:+ NAME check +:+ " check for process name " +:+
         name process_spec) ++
      [CheckCall (NAME check) process_spec] ++
      log_events self w1
        (NAME check +:+ " check raised error for process " +:+
         name process_spec +:+ ": " +:+ exn_str e) ++
      t)).
Proof.
  intros Hcall. cbn [check_loop]. unfold check_step. mrun.
  destruct (check_loop self rest process_spec w1) as [[r w2] t].
  reflexivity.
Qed.

(** When the restart returns, the first failing check ends the loop. *)
Lemma first_failure_leaves check rest process_spec w w1 w2 t :
  call check process_spec w = (inr false, w1) ->
  _restart_process self process_spec w1 = (inr tt, w2, t) ->
  check_loop self (check :: rest) process_spec w =
    (inr tt, w2,
     log_events self w
       ("Performing " +:+ NAME check +:+ " check for process name " +:+
        name process_spec) ++
     [CheckCall (NAME check) process_spec] ++
     log_events self w1
       (NAME check +:+ " check failed for process " +:+ name process_spec +:+
        ". Trying to restart.") ++
     t).
Proof.
  intros Hcall Hrestart. cbn [check_loop]. unfold check_step. mrun.
  by rewrite !app_nil_r.
Qed.

End Claims.

Section MainLoop.
Context {W : Type} `{Environment W}.
Variable self : CheckRunner W.

Lemma run_step_tick w headers w1 kind :
  listener_wait w = (inr headers, w1) ->
  headers !! EVENT_NAME_KEY = Some kind ->
  kind ∈ TICK_EVENTS ->
  run_step self w =
    match _check_processes self w1 with
    | (inl e, w2, t) => (inl e, w2, ListenerWait :: t)
    | (inr _, w2, t) => (inr Next, w2, ListenerWait :: t ++ [ListenerOk])
    end.
Proof.
  intros Hwait Hkey Htick. unfold run_step, getitem. mrun. rewrite Hkey.
  rewrite bool_decide_eq_true_2 by exact Htick. mrun.
  destruct (_check_processes self w1) as [[[e|[]] w2] t]; reflexivity.
Qed.

Lemma run_raises e w w1 t fuel :
  stop_event_is_set w = false ->
  run_step self w = (inl e, w1, t) ->
  run self (S fuel) w = (inl e, w1, startup_events self w ++ t).
Proof.
  intros Hstop Hstep. unfold run, _install_signal_handlers. mrun.
  cbn [run_loop]. unfold is_set. mrun. rewrite Hstop. mrun.
  unfold startup_events, log_events. rewrite <- !app_assoc. reflexivity.
Qed.

Lemma run_step_leaves w w' t :
  run_step self w = (inr Leave, w', t) ->
  exists e, listener_wait w = (inl e, w') /\ exn_cls e = WaitInterrupted.
Proof.
  unfold run_step, getitem. mrun.
  destruct (listener_wait w) as [[e|headers] w1] eqn:Hwait.
  - destruct (exn_cls e) eqn:Hcls; mrun; try discriminate.
    intros [= <- <-]. by exists e.
  - mrun. destruct (headers !! EVENT_NAME_KEY) as [kind|]; mrun;
      [| discriminate].
    destruct (bool_decide (kind ∈ TICK_EVENTS)); mrun; [| discriminate].
    destruct (_check_processes self w1) as [[[e|[]] w2] t2]; discriminate.
Qed.

Lemma run_loop_exits fuel w w' t :
  run_loop self fuel w = (inr Exited, w', t) ->
  stop_event_is_set w' = true \/
  exists w0 e, listener_wait w0 = (inl e, w') /\ exn_cls e = WaitInterrupted.
Proof.
  revert w t. induction fuel as [|fuel IH]; intros w t; [discriminate |].
  cbn [run_loop]. unfold is_set. mrun.
  destruct (stop_event_is_set w) eqn:Hstop.
  - intros [= <- <-]. by left.
  - mrun. destruct (run_step self w) as [[[e|[|]] w1] t1] eqn:Hstep;
      [discriminate | |].
    + destruct (run_loop self fuel w1) as [[r w2] t2] eqn:Hloop.
      intros [= -> -> <-]. by eapply IH.
    + intros [= <- <-]. right. exists w.
      by apply run_step_leaves in Hstep.
Qed.

(** ** The main loop *)

(** C8: an event whose kind is not a tick kind is logged and acknowledged;
    no check cycle runs, nothing is raised and the loop goes on. *)
Theorem unsupported_event_is_acknowledged w headers w1 kind :
  listener_wait w = (inr headers, w1) ->
  headers !! EVENT_NAME_KEY = Some kind ->
  kind ∉ TICK_EVENTS ->
  run_step self w =
    (inr Next, w1,
     [ListenerWait] ++
     log_events self w1 ("Received unsupported event type: " +:+ kind) ++
     [ListenerOk]).
Proof.
  intros Hwait Hkey Hkind. unfold run_step, getitem. mrun. rewrite Hkey.
  rewrite bool_decide_eq_false_2 by exact Hkind. mrun. reflexivity.
Qed.

(** ** The logger *)

(** C10: [_log] writes one line to STDERR and flushes at once.  The line
    is the timestamp, the daemon name in brackets, the message and a line
    feed; the second field of the date in the timestamp is the minute. *)
Theorem log_line_format msg args text w :
  pyformat msg args = inr text ->
  _log self msg args w =
    (inr tt, w,
     [StderrWrite
        (timestamp (datetime_now w) +:+ " [" +:+ _name self +:+ "] " +:+
         text +:+ LF);
      StderrFlush]).
Proof.
  intros Hf. rewrite (_log_eq self msg args text w Hf).
  reflexivity.
Qed.

End MainLoop.

(** ** More about the methods *)

Lemma fmt_got_signal signum :
  pyformat "Got signal %s" [signum] = inr ("Got signal " +:+ signum).
Proof. solve_fmt. Qed.

#[export] Hint Resolve fmt_got_signal : fmt.

Section More.
Context {W : Type} `{Environment W}.
Variable self : CheckRunner W.

Lemma filter_sublist {A} (f : A -> bool) (l : list A) :
  List.filter f l `sublist_of` l.
Proof.
  induction l as [|x l IH]; simpl; [constructor |].
  destruct (f x); by constructor.
Qed.

(** X1: [_get_process_spec_list] makes one enumeration call and keeps, in
    the order of the enumeration, exactly the processes of the configured
    group that are in the given state; with no state given, all the
    processes of the group. *)
Theorem process_spec_list_filter st w procs w1 :
  rpc_getAllProcessInfo w = (inr procs, w1) ->
  exists l,
    _get_process_spec_list self st w = (inr l, w1, [GetAllProcessInfo]) /\
    l `sublist_of` procs /\
    forall p,
      p ∈ l <->
      p ∈ procs /\ group p = _process_group self /\
      (forall s, st = Some s -> state p = s).
Proof.
  intros Hall. unfold _get_process_spec_list. mrun.
  eexists. split; [reflexivity |]. split; [apply filter_sublist |].
  intros p. rewrite !list_elem_of_In, List.filter_In, andb_true_iff.
  rewrite String.eqb_eq. split.
  - intros (Hin & Hg & Hs). split_and!; [done | done |].
    intros s ->. by apply Z.eqb_eq.
  - intros (Hin & Hg & Hs). split_and!; [done | done |].
    destruct st as [s|]; [| done]. apply Z.eqb_eq. by apply Hs.
Qed.

(** X2: [_check_and_restart] always returns normally: whatever a check, the
    re-fetch, [stopProcess] or [startProcess] raises is caught inside it. *)
Theorem check_and_restart_always_returns process_spec w :
  (_check_and_restart self process_spec w).1.1 = inr tt.
Proof.
  destruct (check_loop_never_raises self (_checks self) process_spec w)
    as [[] Hok].
  exact Hok.
Qed.

Lemma checks_run_app t1 t2 :
  checks_run (t1 ++ t2) = checks_run t1 ++ checks_run t2.
Proof.
  induction t1 as [|ev t1 IH]; [reflexivity |].
  destruct ev; simpl; rewrite ?IH; reflexivity.
Qed.

Lemma checks_run_none t : Forall no_check t -> checks_run t = [].
Proof.
  induction 1 as [|ev t Hev _ IH]; [reflexivity |].
  destruct ev; simpl; try exact IH. destruct Hev.
Qed.

Lemma restart_no_check p : emits no_check (_restart_process self p).
Proof.
  unfold _restart_process.
  repeat first
    [ apply emits_bind; [| intros ?]
    | apply emits_try; [| intros ?]
    | apply emits_emit; exact I
    | apply emits_extern; exact I
    | apply emits_log; [intros ?; exact I | exact I]
    | apply emits_ret
    | match goal with |- emits _ (if ?b then _ else _) => destruct b end ].
Qed.

Lemma log_events_no_check w text : checks_run (log_events self w text) = [].
Proof. reflexivity. Qed.

Lemma check_step_checks c p w :
  checks_run (check_step self c p w).2 = [NAME c].
Proof.
  unfold check_step. mrun.
  pose proof (restart_no_check p) as Hre.
  destruct (call c p w) as [[e|[|]] w1] eqn:Hcall; mrun; try reflexivity.
  specialize (Hre w1). apply checks_run_none in Hre.
  destruct (_restart_process self p w1) as [[[e|[]] w2] t2]; simpl in Hre;
    mrun; cbn [snd]; rewrite ?checks_run_app; cbn [checks_run app];
    rewrite ?checks_run_app, ?Hre; reflexivity.
Qed.

(** X3: the checks are evaluated in the configured order, each at most
    once and none skipped: the names of the checks evaluated form a prefix
    of the configured list. *)
Theorem checks_run_in_configured_order process_spec w :
  checks_run (_check_and_restart self process_spec w).2
    `prefix_of` (NAME <$> _checks self).
Proof.
  unfold _check_and_restart. revert w.
  induction (_checks self) as [|c cs IH]; intros w; [by exists [] |].
  cbn [check_loop]. unfold bind.
  pose proof (check_step_checks c process_spec w) as Hc.
  destruct (check_step self c process_spec w) as [[[e|[|]] w1] t1];
    simpl in Hc.
  - simpl. rewrite Hc. by apply prefix_cons, prefix_nil.
  - specialize (IH w1).
    destruct (check_loop self cs process_spec w1) as [[r w2] t2].
    simpl in *. rewrite checks_run_app, Hc. by apply prefix_cons.
  - simpl. rewrite app_nil_r, Hc. by apply prefix_cons, prefix_nil.
Qed.


Lemma actions_app t1 t2 : actions (t1 ++ t2) = actions t1 ++ actions t2.
Proof. apply List.filter_app. Qed.

Lemma restart_attempts_app t1 t2 :
  restart_attempts (t1 ++ t2) = (restart_attempts t1 + restart_attempts t2)%nat.
Proof. unfold restart_attempts. by rewrite List.filter_app, length_app. Qed.

Lemma check_step_without_failure c p w :
  (call c p w).1 <> inr false ->
  exists w1 t,
    check_step self c p w = (inr Next, w1, t) /\
    checks_run t = [NAME c] /\ restart_attempts t = 0%nat /\ actions t = [].
Proof.
  intros Hnf. unfold check_step. mrun.
  destruct (call c p w) as [[e|[|]] w1] eqn:Hcall; mrun.
  - by eexists _, _.
  - by eexists _, _.
  - by destruct Hnf.
Qed.

(** X4: when no check returns a false value (each passes or raises), every
    configured check is evaluated and nothing is restarted: no re-fetch, no
    stop, no start. *)
Theorem no_failed_check_no_restart process_spec w :
  Forall (fun check => forall w, (call check process_spec w).1 <> inr false)
         (_checks self) ->
  let t := (_check_and_restart self process_spec w).2 in
  checks_run t = NAME <$> _checks self /\
  restart_attempts t = 0%nat /\
  actions t = [].
Proof.
  unfold _check_and_restart. intros Hall. revert w.
  induction Hall as [|c cs Hc _ IH]; intros w; [done |].
  cbn [check_loop]. unfold bind.
  destruct (check_step_without_failure c process_spec w (Hc w))
    as (w1 & t1 & -> & Hrun & Hre & Hact).
  specialize (IH w1). destruct (check_loop self cs process_spec w1)
    as [[r w2] t2].
  simpl in *. destruct IH as (IHrun & IHre & IHact).
  rewrite checks_run_app, restart_attempts_app, actions_app.
  by rewrite Hrun, Hre, Hact, IHrun, IHre, IHact.
Qed.

Lemma isinstance_fault e : isinstance e Fault = false -> exn_cls e <> Fault.
Proof. unfold isinstance. by destruct (exn_cls e). Qed.

(** X5: one restart re-fetches the descriptor exactly once and acts at most
    once, in this order: [stopProcess], then [startProcess] with the wait
    flag off, both on the qualified name of the process it was given. *)
Theorem restart_acts_at_most_once process_spec w :
  let name_spec := namespec_of process_spec in
  let t := (_restart_process self process_spec w).2 in
  List.filter is_restart t = [GetProcessInfo name_spec] /\
  actions t `prefix_of` [StopProcess name_spec; StartProcess name_spec false].
Proof.
  intros ns t. subst t. unfold _restart_process. fold (namespec_of process_spec).
  fold ns. mrun.
  destruct (rpc_getProcessInfo ns w) as [[e|fresh] w1]; mrun.
  { split; [reflexivity | apply prefix_nil]. }
  destruct (state fresh =? ProcessStates.RUNNING); mrun;
    [| split; [reflexivity | apply prefix_nil]].
  destruct (rpc_stopProcess ns w1) as [[e|[]] w2]; mrun.
  - destruct (isinstance e Fault) eqn:Hcls; unfold isinstance in Hcls;
      rewrite Hcls; mrun;
      [| split; [reflexivity | by exists [StartProcess ns false]]].
    destruct (rpc_startProcess ns false w2) as [[e'|[]] w3]; mrun;
      [destruct (exn_class_eqb (exn_cls e') Fault); mrun |];
      (split; [reflexivity | by exists []]).
  - destruct (rpc_startProcess ns false w2) as [[e'|[]] w3]; mrun;
      [destruct (exn_class_eqb (exn_cls e') Fault); mrun |];
      (split; [reflexivity | by exists []]).
Qed.

(** X6: [_restart_process] raises only an error of the re-fetch (nothing
    is then stopped or started), or an error other than a fault of
    [stopProcess] (the start is then not attempted) or of [startProcess];
    a fault of [stopProcess] or [startProcess] never leaves it. *)
Theorem restart_raises_only process_spec w e w' t :
  let name_spec := namespec_of process_spec in
  _restart_process self process_spec w = (inl e, w', t) ->
  (rpc_getProcessInfo name_spec w = (inl e, w') /\ actions t = []) \/
  (exn_cls e <> Fault /\
   exists fresh w1,
     rpc_getProcessInfo name_spec w = (inr fresh, w1) /\
     state fresh = ProcessStates.RUNNING /\
     ((rpc_stopProcess name_spec w1 = (inl e, w') /\
       actions t = [StopProcess name_spec]) \/
      (exists rs w2,
         rpc_stopProcess name_spec w1 = (rs, w2) /\
         rpc_startProcess name_spec false w2 = (inl e, w') /\
         actions t = [StopProcess name_spec; StartProcess name_spec false]))).
Proof.
  intros ns. unfold _restart_process. fold (namespec_of process_spec).
  fold ns. mrun.
  destruct (rpc_getProcessInfo ns w) as [[e0|fresh] w1] eqn:Hinfo; mrun.
  { intros [= <- <- <-]. by left. }
  destruct (state fresh =? ProcessStates.RUNNING) eqn:Hst; mrun;
    [| discriminate].
  apply Z.eqb_eq in Hst.
  destruct (rpc_stopProcess ns w1) as [[e0|[]] w2] eqn:Hstop; mrun.
  - destruct (isinstance e0 Fault) eqn:Hcls; pose proof Hcls as Hcls';
      unfold isinstance in Hcls'; rewrite Hcls'; mrun.
    + destruct (rpc_startProcess ns false w2) as [[e'|[]] w3] eqn:Hstart;
        mrun; [| discriminate].
      destruct (isinstance e' Fault) eqn:Hcls2; pose proof Hcls2 as Hcls2';
        unfold isinstance in Hcls2'; rewrite Hcls2'; mrun; [discriminate |].
      intros [= <- <- <-]. right. split; [by apply isinstance_fault |].
      exists fresh, w1. split_and!; [done | done |]. right. by exists (inl e0), w2.
    + intros [= <- <- <-]. right. split; [by apply isinstance_fault |].
      exists fresh, w1. split_and!; [done | done |]. by left.
  - destruct (rpc_startProcess ns false w2) as [[e'|[]] w3] eqn:Hstart;
      mrun; [| discriminate].
    destruct (isinstance e' Fault) eqn:Hcls2; pose proof Hcls2 as Hcls2';
      unfold isinstance in Hcls2'; rewrite Hcls2'; mrun; [discriminate |].
    intros [= <- <- <-]. right. split; [by apply isinstance_fault |].
    exists fresh, w1. split_and!; [done | done |]. right. by exists (inr tt), w2.
Qed.


(** ** What a cycle touches *)

Ltac emits_with known tac :=
  repeat first
    [ known
    | apply emits_bind; [| intros ?]
    | apply emits_try; [| intros ?]
    | apply emits_emit; tac
    | apply emits_extern; tac
    | apply emits_log; [intros ?; tac | tac]
    | apply emits_ret
    | match goal with |- emits _ (if ?b then _ else _) => destruct b end ].

Lemma emits_foreach {A} P (l : list A) (body : A -> M W unit) :
  (forall x, x ∈ l -> emits P (body x)) -> emits P (foreach l body).
Proof.
  induction l as [|x l IH]; intros Hb; cbn [foreach]; [apply emits_ret |].
  apply emits_bind; [apply Hb; by left |].
  intros _. apply IH. intros y Hy. apply Hb. by right.
Qed.

Lemma emits_impl {A} (P Q : Event -> Prop) (m : M W A) :
  (forall ev, P ev -> Q ev) -> emits P m -> emits Q m.
Proof. intros HPQ Hm w. eapply Forall_impl; [apply Hm | exact HPQ]. Qed.

Lemma within_impl (ok1 ok2 : ProcessSpec -> Prop) ev :
  (forall p, ok1 p -> ok2 p) -> within ok1 ev -> within ok2 ev.
Proof.
  intros Hok. destruct ev; simpl; try done.
  - intros (p & Hp & ->). exists p. auto.
  - intros (p & Hp & ->). exists p. auto.
  - intros (-> & p & Hp & ->). split; [done |]. exists p. auto.
  - auto.
Qed.

Lemma restart_within p : emits (within (eq p)) (_restart_process self p).
Proof.
  unfold _restart_process. fold (namespec_of p).
  emits_with fail
    ltac:(first [exact I | by exists p | by split; [| exists p]]).
Qed.

Lemma check_loop_within cs p : emits (within (eq p)) (check_loop self cs p).
Proof.
  induction cs as [|c cs IH]; cbn [check_loop]; [apply emits_ret |].
  apply emits_bind.
  - unfold check_step.
    emits_with ltac:(apply restart_within)
      ltac:(first [exact I | reflexivity]).
  - intros [|]; [exact IH | apply emits_ret].
Qed.

Lemma restart_worker p : emits worker_event (_restart_process self p).
Proof. unfold _restart_process. emits_with fail ltac:(exact I). Qed.

Lemma check_loop_worker cs p : emits worker_event (check_loop self cs p).
Proof.
  induction cs as [|c cs IH]; cbn [check_loop]; [apply emits_ret |].
  apply emits_bind.
  - unfold check_step.
    emits_with ltac:(apply restart_worker) ltac:(exact I).
  - intros [|]; [exact IH | apply emits_ret].
Qed.

(** What follows the enumeration in [_check_processes]. *)
Lemma dispatch_emits (P : Event -> Prop) ms :
  (forall ev, is_pool_event ev = true \/ is_action ev = false /\ no_check ev /\
              is_restart ev = false /\ worker_event ev -> P ev) ->
  (forall p, p ∈ ms -> emits P (_check_and_restart self p)) ->
  emits P
    (match ms with
     | [] =>
         _log self "No processes in state RUNNING found for process group %s"
              [_process_group self]
     | [process_spec] => _check_and_restart self process_spec
     | _ => with_ThreadPoolExecutor self MAX_THREADS ms
     end).
Proof.
  intros HP Hp.
  assert (emits P (with_ThreadPoolExecutor self MAX_THREADS ms)) as Hpool.
  { unfold with_ThreadPoolExecutor.
    apply emits_bind; [apply emits_emit, HP; by left |]. intros _.
    apply emits_bind.
    { apply emits_foreach. intros p _. apply emits_emit, HP. by left. }
    intros _. apply emits_bind.
    { apply emits_foreach. intros p Hin. unfold worker_task.
      apply emits_bind; [apply emits_emit, HP; by left |]. intros _.
      apply emits_bind; [| intros _; apply emits_emit, HP; by left].
      apply emits_try; [by apply Hp | intros _; apply emits_ret]. }
    intros _. apply emits_emit, HP. by left. }
  destruct ms as [|p1 [|p2 ms]]; [| apply Hp; by left | exact Hpool].
  apply emits_log; [intros line |]; apply HP; right; by repeat split.
Qed.

(** X7: a check cycle evaluates checks only on, and re-fetches, stops and
    starts only, processes that the enumeration reported RUNNING in the
    configured group; every start is issued with the wait flag off. *)
Theorem cycle_touches_only_matches w procs w1 :
  rpc_getAllProcessInfo w = (inr procs, w1) ->
  Forall
    (within (fun p =>
               p ∈ procs /\ group p = _process_group self /\
               state p = ProcessStates.RUNNING))
    (_check_processes self w).2.
Proof.
  intros Hall. unfold _check_processes. unfold bind at 1.
  rewrite (enumerate self w procs w1 Hall).
  set (ms := matches (_process_group self) procs).
  set (ok := fun p => _).
  assert (forall p, p ∈ ms -> ok p) as Hms.
  { intros p Hin. subst ms ok. unfold matches in Hin.
    rewrite list_elem_of_In, List.filter_In, andb_true_iff in Hin.
    destruct Hin as (Hin & Hg & Hs). rewrite list_elem_of_In.
    by rewrite String.eqb_eq in Hg; apply Z.eqb_eq in Hs. }
  pose proof (dispatch_emits (within ok) ms) as Hd.
  match type of Hd with _ -> _ -> emits _ ?m =>
    destruct (m w1) as [[r w2] t] eqn:Hrun end.
  cbn [snd]. constructor; [exact I |].
  assert (Forall (within ok) (r, w2, t).2) as Ht; [| exact Ht].
  rewrite <- Hrun. apply Hd.
  - intros ev [Hpool | (Hact & Hch & Hre & Hw)]; destruct ev; try done.
  - intros p Hin. eapply emits_impl; [| apply check_loop_within].
    intros ev. apply within_impl. intros ? <-. by apply Hms.
Qed.


(** ** The main loop, continued *)

Lemma count_app (f : Event -> bool) t1 t2 :
  length (List.filter f (t1 ++ t2)) =
  (length (List.filter f t1) + length (List.filter f t2))%nat.
Proof. by rewrite List.filter_app, length_app. Qed.

Lemma count_none (f : Event -> bool) (P : Event -> Prop) t :
  (forall ev, P ev -> f ev = false) -> Forall P t ->
  length (List.filter f t) = 0%nat.
Proof.
  intros HP. induction 1 as [|ev t Hev _ IH]; [reflexivity |].
  simpl. by rewrite (HP ev Hev).
Qed.

Lemma check_processes_shape w :
  exists t,
    (_check_processes self w).2 = GetAllProcessInfo :: t /\
    Forall worker_event t.
Proof.
  unfold _check_processes, _get_process_spec_list.
  unfold bind at 1. unfold bind at 1. unfold extern, ret.
  destruct (rpc_getAllProcessInfo w) as [[e|procs] w1]; [by exists [] |].
  cbn beta iota. rewrite app_nil_r.
  pose proof (dispatch_emits worker_event
    (List.filter
       (fun p => String.eqb (group p) (_process_group self) &&
                 Z.eqb (state p) ProcessStates.RUNNING) procs)) as Hd.
  match type of Hd with _ -> _ -> emits _ ?m =>
    specialize (fun H1 H2 => Hd H1 H2 w1);
    destruct (m w1) as [[r w2] t] end.
  exists t. split; [reflexivity |]. apply Hd.
  - intros ev [Hpool | (_ & _ & _ & Hw)]; [by destruct ev | exact Hw].
  - intros p _. apply check_loop_worker.
Qed.

Lemma worker_counts t :
  Forall worker_event t ->
  waits t = 0%nat /\ acks t = 0%nat /\ enumerations t = 0%nat /\
  Forall (fun ev => forall s, ev <> SignalInstall s) t.
Proof.
  intros Ht. split_and!;
    try (eapply count_none; [| exact Ht]; by intros []).
  eapply Forall_impl; [exact Ht |]. intros ev Hev s ->. exact Hev.
Qed.

(** The listener events and enumerations of one pass of the loop. *)
Lemma run_step_counts w :
  let '(r, _, t) := run_step self w in
  waits t = 1%nat /\
  acks t = (match r with inr Next => 1 | _ => 0 end)%nat /\
  Forall (fun ev => forall s, ev <> SignalInstall s) t.
Proof.
  unfold run_step, getitem. mrun.
  destruct (listener_wait w) as [[e|headers] w1].
  - destruct (exn_cls e); mrun; split_and!; try reflexivity;
      by repeat constructor.
  - mrun. destruct (headers !! EVENT_NAME_KEY) as [kind|]; mrun;
      [| split_and!; try reflexivity; by repeat constructor].
    destruct (bool_decide (kind ∈ TICK_EVENTS)); mrun;
      [| split_and!; try reflexivity; by repeat constructor].
    destruct (check_processes_shape w1) as (t & Ht & Hw).
    destruct (_check_processes self w1) as [[[e|[]] w2] t'];
      cbn [snd] in Ht; subst t';
      destruct (worker_counts t Hw) as (Hwt & Hak & _ & Hsig);
      unfold waits, acks in *;
      cbn [List.filter is_wait is_ok app length];
      rewrite ?count_app, ?Hwt, ?Hak; split_and!; try reflexivity;
      repeat first [ apply Forall_cons; split; [done |]
                   | apply Forall_app; split
                   | exact Hsig | by repeat constructor ].
Qed.

(** X11: the loop keeps to the listener protocol: it never acknowledges
    more often than it waited, and never leaves more than the last wait
    without acknowledgement.  While it runs, every wait has been
    acknowledged; when an error escapes, exactly the last wait has not. *)
Theorem acknowledgements_follow_waits fuel w :
  let '(r, _, t) := run_loop self fuel w in
  match r with
  | inr Running => waits t = fuel /\ acks t = fuel
  | inr Exited => (acks t <= waits t <= acks t + 1)%nat
  | inl _ => waits t = (acks t + 1)%nat
  end.
Proof.
  revert w. induction fuel as [|fuel IH]; intros w; [by split |].
  cbn [run_loop]. unfold is_set. mrun.
  destruct (stop_event_is_set w); mrun; [unfold waits, acks; simpl; lia |].
  pose proof (run_step_counts w) as Hstep.
  destruct (run_step self w) as [[[e|[|]] w1] t1];
    destruct Hstep as (Hw & Ha & _).
  - lia.
  - specialize (IH w1). destruct (run_loop self fuel w1) as [[r w2] t2].
    unfold waits, acks in *. rewrite !count_app, Hw, Ha.
    destruct r as [e|[|]]; lia.
  - unfold waits, acks in *. rewrite !count_app, Hw, Ha. simpl. lia.
Qed.


Lemma run_loop_installs_nothing fuel w :
  Forall (fun ev => forall s, ev <> SignalInstall s) (run_loop self fuel w).2.
Proof.
  revert w. induction fuel as [|fuel IH]; intros w; [constructor |].
  cbn [run_loop]. unfold is_set. mrun.
  destruct (stop_event_is_set w); mrun; [constructor |].
  pose proof (run_step_counts w) as Hstep.
  destruct (run_step self w) as [[[e|[|]] w1] t1];
    destruct Hstep as (_ & _ & Hsig); cbn [snd]; [exact Hsig | |].
  - specialize (IH w1). destruct (run_loop self fuel w1) as [[r w2] t2].
    apply Forall_app. by split.
  - by rewrite app_nil_r.
Qed.

(** X8: with the stop event already set, [run] logs its start, installs
    the handlers, logs "Done." and returns without waiting for an event. *)
Theorem run_with_stop_set fuel w :
  stop_event_is_set w = true ->
  run self (S fuel) w =
    (inr Exited, w, startup_events self w ++ log_events self w "Done.").
Proof.
  intros Hstop. unfold run, _install_signal_handlers. mrun.
  cbn [run_loop]. unfold is_set. mrun. rewrite Hstop. mrun.
  unfold startup_events, log_events. rewrite <- !app_assoc. reflexivity.
Qed.

Lemma tick_kinds kind :
  kind ∈ TICK_EVENTS <->
  kind = "TICK_5" \/ kind = "TICK_60" \/ kind = "TICK_3600".
Proof.
  unfold TICK_EVENTS. rewrite !elem_of_union, !elem_of_singleton. tauto.
Qed.

(** X12: a pass of the loop enumerates the processes exactly once when the
    event name is exactly TICK_5, TICK_60 or TICK_3600, and not at all for
    any other name. *)
Theorem one_enumeration_per_tick w headers w1 kind :
  listener_wait w = (inr headers, w1) ->
  headers !! EVENT_NAME_KEY = Some kind ->
  enumerations (run_step self w).2 =
    if bool_decide (kind = "TICK_5" \/ kind = "TICK_60" \/ kind = "TICK_3600")
    then 1%nat else 0%nat.
Proof.
  intros Hwait Hkey.
  rewrite <- (bool_decide_ext _ _ (tick_kinds kind)).
  destruct (decide (kind ∈ TICK_EVENTS)) as [Htick | Hother].
  - rewrite (bool_decide_eq_true_2 _ Htick).
    rewrite (run_step_tick self w headers w1 kind Hwait Hkey Htick).
    destruct (check_processes_shape w1) as (t & Ht & Hw).
    destruct (worker_counts t Hw) as (_ & _ & Hen & _).
    destruct (_check_processes self w1) as [[[e|[]] w2] t'];
      cbn [snd] in *; subst t'; unfold enumerations in *;
      cbn [List.filter is_enumeration length app]; rewrite ?count_app, Hen;
      reflexivity.
  - rewrite (bool_decide_eq_false_2 _ Hother).
    unfold run_step, getitem. mrun. rewrite Hkey.
    rewrite (bool_decide_eq_false_2 _ Hother). mrun. reflexivity.
Qed.

(** X13: the signal handler logs the signal and sets the stop event; the
    loop condition evaluated next ends the loop without another wait. *)
Theorem signal_handler_stops_loop signum fuel w :
  stop_event_is_set (stop_event_set w) = true ->
  bind (_signal_handler self signum) (fun _ => run_loop self (S fuel)) w =
    (inr Exited, stop_event_set w,
     log_events self w ("Got signal " +:+ signum)).
Proof.
  intros Hset. unfold _signal_handler. mrun.
  cbn [run_loop]. unfold is_set. mrun. rewrite Hset.
  by rewrite !app_nil_r.
Qed.

End More.

(** ** The loop at any pass *)

Section AnyPass.
Context {W : Type} `{Environment W}.
Variable self : CheckRunner W.

Lemma run_loop_after n k w w' t0 :
  after_passes self n w = Some (w', t0) ->
  run_loop self (n + k) w =
    (let '(r, w'', t) := run_loop self k w' in (r, w'', t0 ++ t)).
Proof.
  revert w t0. induction n as [|n IH]; intros w t0.
  - intros [= -> <-]. simpl. by destruct (run_loop self k w') as [[r w''] t].
  - cbn [after_passes Nat.add run_loop]. unfold is_set. mrun.
    destruct (stop_event_is_set w); [discriminate |]. mrun.
    destruct (run_step self w) as [[[e|[|]] w1] t1]; try discriminate.
    destruct (after_passes self n w1) as [[w2 t2]|] eqn:Hrest;
      [| discriminate].
    intros [= -> <-]. rewrite (IH w1 t2 Hrest).
    destruct (run_loop self k w') as [[r w''] t]. by rewrite app_assoc.
Qed.

Lemma after_passes_counts n w w' t0 :
  after_passes self n w = Some (w', t0) -> waits t0 = n /\ acks t0 = n.
Proof.
  revert w t0. induction n as [|n IH]; intros w t0.
  - by intros [= -> <-].
  - cbn [after_passes]. destruct (stop_event_is_set w); [discriminate |].
    pose proof (run_step_counts self w) as Hstep.
    destruct (run_step self w) as [[[e|[|]] w1] t1]; try discriminate.
    destruct Hstep as (Hw & Ha & _).
    destruct (after_passes self n w1) as [[w2 t2]|] eqn:Hrest;
      [| discriminate].
    intros [= -> <-]. destruct (IH w1 t2 Hrest) as [IHw IHa].
    unfold waits, acks in *. rewrite !count_app. lia.
Qed.

(** [run] in terms of its loop. *)
Lemma run_eq fuel w :
  run self fuel w =
    (let '(r, w', t) := run_loop self fuel w in
     (r, w',
      startup_events self w ++ t ++
      match r with
      | inr Exited => log_events self w' "Done."
      | _ => []
      end)).
Proof.
  unfold run, _install_signal_handlers. mrun.
  destruct (run_loop self fuel w) as [[[e|[|]] w1] t1]; mrun;
    unfold startup_events, log_events; rewrite <- ?app_assoc;
    rewrite ?app_nil_r; reflexivity.
Qed.

Lemma startup_counts w :
  waits (startup_events self w) = 0%nat /\ acks (startup_events self w) = 0%nat.
Proof. by split. Qed.

(** A pass that ends the loop, after [n] passes that did not. *)
Lemma run_at_pass n w0 w t0 k :
  after_passes self n w0 = Some (w, t0) ->
  stop_event_is_set w = false ->
  run self (n + S k) w0 =
    match run_step self w with
    | (inl e, w1, t) => (inl e, w1, startup_events self w0 ++ t0 ++ t)
    | (inr Leave, w1, t) =>
        (inr Exited, w1,
         startup_events self w0 ++ t0 ++ t ++ log_events self w1 "Done.")
    | (inr Next, w1, t) =>
        (let '(r, w', t') := run_loop self k w1 in
         (r, w',
          startup_events self w0 ++ t0 ++ t ++ t' ++
          match r with
          | inr Exited => log_events self w' "Done."
          | _ => []
          end))
    end.
Proof.
  intros Hn Hstop. rewrite run_eq, (run_loop_after n (S k) w0 w t0 Hn).
  cbn [run_loop]. unfold is_set. mrun. rewrite Hstop. mrun.
  destruct (run_step self w) as [[[e|[|]] w1] t].
  - by rewrite app_nil_r.
  - destruct (run_loop self k w1) as [[r w'] t'].
    by rewrite <- !app_assoc.
  - by rewrite !app_nil_r, <- !app_assoc.
Qed.

Lemma pass_counts n w0 w t0 t :
  after_passes self n w0 = Some (w, t0) ->
  waits t = 1%nat -> acks t = 0%nat ->
  waits (startup_events self w0 ++ t0 ++ t) = S n /\
  acks (startup_events self w0 ++ t0 ++ t) = n.
Proof.
  intros Hn Hw Ha. destruct (after_passes_counts n w0 w t0 Hn) as [Hw0 Ha0].
  destruct (startup_counts w0) as [Hws Has].
  unfold waits, acks in *. rewrite !count_app. lia.
Qed.

(** C9: on any pass of the loop, a header block without ['eventname']
    makes [headers[EVENT_NAME_KEY]] raise [KeyError]; nothing catches it, so
    [run] ends with it right after that wait.  The passes before it were
    acknowledged, this event is not. *)
Theorem missing_eventname_is_fatal n w0 w t0 headers w1 fuel :
  after_passes self n w0 = Some (w, t0) ->
  stop_event_is_set w = false ->
  listener_wait w = (inr headers, w1) ->
  headers !! EVENT_NAME_KEY = None ->
  let t := startup_events self w0 ++ t0 ++ [ListenerWait] in
  run self (n + S fuel) w0 = (inl (mkExn KeyError EVENT_NAME_KEY), w1, t) /\
  waits t = S n /\ acks t = n.
Proof.
  intros Hn Hstop Hwait Hkey t. split; [| by eapply pass_counts].
  rewrite (run_at_pass n w0 w t0 fuel Hn Hstop).
  unfold run_step, getitem. mrun. rewrite Hkey. reflexivity.
Qed.

(** C1, as the code has it: on a tick event, once the enumeration has
    returned, whatever the checks and the RPC calls of the restarts do, the
    pass acknowledges the event and the loop goes on; an error raised by the
    enumeration itself, on any pass, is caught nowhere: [run] ends with it
    and the event is not acknowledged.  The loop ends normally only when it
    finds the stop event set or when the wait is interrupted. *)
Theorem tick_errors_and_exit :
  (forall w headers w1 kind procs w2,
     listener_wait w = (inr headers, w1) ->
     headers !! EVENT_NAME_KEY = Some kind ->
     kind ∈ TICK_EVENTS ->
     rpc_getAllProcessInfo w1 = (inr procs, w2) ->
     exists w' t, run_step self w = (inr Next, w', t ++ [ListenerOk])) /\
  (forall n w0 w t0 headers w1 kind e w2 fuel,
     after_passes self n w0 = Some (w, t0) ->
     stop_event_is_set w = false ->
     listener_wait w = (inr headers, w1) ->
     headers !! EVENT_NAME_KEY = Some kind ->
     kind ∈ TICK_EVENTS ->
     rpc_getAllProcessInfo w1 = (inl e, w2) ->
     let t :=
       startup_events self w0 ++ t0 ++ [ListenerWait; GetAllProcessInfo] in
     run self (n + S fuel) w0 = (inl e, w2, t) /\
     waits t = S n /\ acks t = n) /\
  (forall fuel w w' t,
     run_loop self fuel w = (inr Exited, w', t) ->
     stop_event_is_set w' = true \/
     exists w0 e,
       listener_wait w0 = (inl e, w') /\ exn_cls e = WaitInterrupted).
Proof.
  split_and!.
  - intros w headers w1 kind procs w2 Hwait Hkey Htick Hall.
    rewrite (run_step_tick self w headers w1 kind Hwait Hkey Htick).
    destruct (check_processes_returns self w1 procs w2 Hall) as (w' & t & ->).
    by exists w', (ListenerWait :: t).
  - intros n w0 w t0 headers w1 kind e w2 fuel Hn Hstop Hwait Hkey Htick Hall t.
    split; [| by eapply pass_counts].
    rewrite (run_at_pass n w0 w t0 fuel Hn Hstop).
    rewrite (run_step_tick self w headers w1 kind Hwait Hkey Htick).
    by rewrite (enumerate_fault self w1 e w2 Hall).
  - apply run_loop_exits.
Qed.

(** X9: an interrupted wait, on any pass, ends [run] normally: the stop is
    logged, then "Done."; the interrupted wait is not acknowledged. *)
Theorem interrupted_wait_ends_run n w0 w t0 fuel e w1 :
  after_passes self n w0 = Some (w, t0) ->
  stop_event_is_set w = false ->
  listener_wait w = (inl e, w1) ->
  exn_cls e = WaitInterrupted ->
  let t :=
    startup_events self w0 ++ t0 ++ [ListenerWait] ++
    log_events self w1
      ("Health check for " +:+ _process_group self +:+
       " process group has been told to stop.") ++
    log_events self w1 "Done." in
  run self (n + S fuel) w0 = (inr Exited, w1, t) /\
  waits t = S n /\ acks t = n.
Proof.
  intros Hn Hstop Hwait Hcls t. split.
  - rewrite (run_at_pass n w0 w t0 fuel Hn Hstop).
    unfold run_step. mrun. rewrite Hcls. mrun.
    unfold t. rewrite <- !app_assoc. reflexivity.
  - by eapply pass_counts.
Qed.

(** X10: any other error of the wait, on any pass, is not caught and ends
    [run]. *)
Theorem wait_error_ends_run n w0 w t0 fuel e w1 :
  after_passes self n w0 = Some (w, t0) ->
  stop_event_is_set w = false ->
  listener_wait w = (inl e, w1) ->
  exn_cls e <> WaitInterrupted ->
  let t := startup_events self w0 ++ t0 ++ [ListenerWait] in
  run self (n + S fuel) w0 = (inl e, w1, t) /\
  waits t = S n /\ acks t = n.
Proof.
  intros Hn Hstop Hwait Hcls t. split; [| by eapply pass_counts].
  rewrite (run_at_pass n w0 w t0 fuel Hn Hstop).
  unfold run_step. mrun.
  destruct (exn_cls e); try done; mrun; reflexivity.
Qed.


Lemma run_step_error w e w' t :
  run_step self w = (inl e, w', t) ->
  t = [ListenerWait] \/ t = [ListenerWait; GetAllProcessInfo].
Proof.
  unfold run_step, getitem. mrun.
  destruct (listener_wait w) as [[e0|headers] w1] eqn:Hwait.
  - destruct (exn_cls e0); mrun; intros [= <- <- <-]; by left.
  - mrun. destruct (headers !! EVENT_NAME_KEY) as [kind|]; mrun;
      [| intros [= <- <- <-]; by left].
    destruct (bool_decide (kind ∈ TICK_EVENTS)); mrun; [| discriminate].
    destruct (rpc_getAllProcessInfo w1) as [[e1|procs] w2] eqn:Hall.
    + rewrite (enumerate_fault self w1 e1 w2 Hall).
      intros [= <- <- <-]. by right.
    + destruct (check_processes_returns self w1 procs w2 Hall)
        as (w3 & t3 & ->). discriminate.
Qed.

Lemma run_loop_error fuel w e w' t :
  run_loop self fuel w = (inl e, w', t) ->
  exists t0, t = t0 ++ [ListenerWait] \/ t = t0 ++ [GetAllProcessInfo].
Proof.
  revert w t. induction fuel as [|fuel IH]; intros w t; [discriminate |].
  cbn [run_loop]. unfold is_set. mrun.
  destruct (stop_event_is_set w); mrun; [discriminate |].
  destruct (run_step self w) as [[[e0|[|]] w1] t1] eqn:Hstep.
  - intros [= <- <- <-].
    destruct (run_step_error w e0 w1 t1 Hstep) as [-> | ->];
      [exists []; by left | exists [ListenerWait]; by right].
  - destruct (run_loop self fuel w1) as [[r w2] t2] eqn:Hloop.
    intros [= -> <- <-].
    destruct (IH w1 t2 Hloop) as [t0 [-> | ->]]; exists (t1 ++ t0);
      rewrite app_assoc; [by left | by right].
  - discriminate.
Qed.

(** X14: [run] first logs its start and installs the five signal handlers;
    the loop installs none.  "Done." is appended after the loop exactly
    when the loop ended normally: when an error escapes, the output of [run]
    ends with the call that raised it, a wait or an enumeration, and nothing
    is logged after it. *)
Theorem run_brackets fuel w :
  let '(r, w', t') := run_loop self fuel w in
  run self fuel w =
    (r, w',
     startup_events self w ++ t' ++
     match r with
     | inr Exited => log_events self w' "Done."
     | _ => []
     end) /\
  Forall (fun ev => forall s, ev <> SignalInstall s) t' /\
  (forall e, r = inl e ->
     exists t0, t' = t0 ++ [ListenerWait] \/ t' = t0 ++ [GetAllProcessInfo]).
Proof.
  pose proof (run_eq fuel w) as Hrun.
  pose proof (run_loop_installs_nothing self fuel w) as Hsig.
  pose proof (run_loop_error fuel w) as Herr.
  destruct (run_loop self fuel w) as [[r w'] t'].
  split_and!; [exact Hrun | exact Hsig |].
  intros e ->. by eapply Herr.
Qed.

End AnyPass.

(** ** The code of a worker, step by step *)

Section StepsFacts.
Context {W : Type} `{Environment W}.
Variable self : CheckRunner W.

Lemma bind_ext {A B} (m m' : M W A) (f f' : A -> M W B) w :
  (forall w, m w = m' w) -> (forall a w, f a w = f' a w) ->
  bind m f w = bind m' f' w.
Proof.
  intros Hm Hf. unfold bind. rewrite Hm.
  destruct (m' w) as [[[e|a] w1] t1]; [reflexivity |]. by rewrite Hf.
Qed.

Lemma try_ext {A} (b b' : M W A) cls (h h' : exn -> M W A) w :
  (forall w, b w = b' w) -> (forall e w, h e w = h' e w) ->
  try_except b cls h w = try_except b' cls h' w.
Proof.
  intros Hb Hh. unfold try_except. rewrite Hb.
  destruct (b' w) as [[[e|a] w1] t1]; [| reflexivity].
  destruct (isinstance e cls); [| reflexivity]. by rewrite Hh.
Qed.

Lemma exec_atom {X} (m : M W X) w : Steps.exec (Steps.atom m) w = m w.
Proof.
  simpl. destruct (m w) as [[r w1] t1]. by rewrite app_nil_r.
Qed.

Lemma exec_bindP {A B} (m : Prog W A) (f : A -> Prog W B) w :
  Steps.exec (Steps.bindP m f) w =
  bind (Steps.exec m) (fun a => Steps.exec (f a)) w.
Proof.
  revert w. induction m as [[e|a]|X act k IH]; intros w.
  - reflexivity.
  - simpl. unfold bind. simpl.
    destruct (Steps.exec (f a) w) as [[r w1] t1]. reflexivity.
  - simpl. unfold bind. destruct (act w) as [[r w1] t1].
    rewrite IH. unfold bind.
    destruct (Steps.exec (k r) w1) as [[[e|a] w2] t2]; [reflexivity |].
    destruct (Steps.exec (f a) w2) as [[r3 w3] t3]. by rewrite app_assoc.
Qed.

Lemma exec_tryP {A} (b : Prog W A) cls (h : exn -> Prog W A) w :
  Steps.exec (Steps.tryP b cls h) w =
  try_except (Steps.exec b) cls (fun e => Steps.exec (h e)) w.
Proof.
  revert w. induction b as [[e|a]|X act k IH]; intros w.
  - simpl. unfold try_except. simpl. destruct (isinstance e cls);
      [| reflexivity].
    destruct (Steps.exec (h e) w) as [[r w1] t1]. reflexivity.
  - reflexivity.
  - simpl. unfold try_except. destruct (act w) as [[r w1] t1].
    rewrite IH. unfold try_except.
    destruct (Steps.exec (k r) w1) as [[[e|a] w2] t2]; [| reflexivity].
    destruct (isinstance e cls); [| reflexivity].
    destruct (Steps.exec (h e) w2) as [[r3 w3] t3]. by rewrite app_assoc.
Qed.

Ltac exec_eq :=
  repeat first
    [ rewrite exec_bindP | rewrite exec_tryP | rewrite exec_atom
    | reflexivity
    | apply bind_ext; [intros ? | intros ? ?]
    | apply try_ext; [intros ? | intros ? ?]
    | match goal with |- context [if ?b then _ else _] => destruct b end ].

Lemma exec_restart p w :
  Steps.exec (Steps._restart_process self p) w = _restart_process self p w.
Proof. unfold Steps._restart_process, _restart_process. exec_eq. Qed.

Lemma exec_check_step c p w :
  Steps.exec (Steps.check_step self c p) w = check_step self c p w.
Proof.
  unfold Steps.check_step, check_step. exec_eq; try apply exec_restart.
Qed.


Lemma exec_check_loop cs p w :
  Steps.exec (Steps.check_loop self cs p) w = check_loop self cs p w.
Proof.
  revert w. induction cs as [|c cs IH]; intros w; [reflexivity |].
  cbn [Steps.check_loop check_loop]. rewrite exec_bindP.
  apply bind_ext; [apply exec_check_step |]. intros [|] w'; [apply IH | done].
Qed.

(** Run alone, the program of a task is [_check_and_restart]. *)
Lemma exec_check_and_restart p w :
  Steps.exec (Steps._check_and_restart self p) w = _check_and_restart self p w.
Proof. apply exec_check_loop. Qed.

Lemma runs_to_snoc {A X} (p : Prog W A) log (act : M W X) k w r w' evs :
  Steps.runs_to p log (Atomic act k) ->
  act w = (r, w', evs) ->
  Steps.runs_to p (log ++ evs) (k r).
Proof.
  intros Hrun Hact.
  remember (Atomic act k) as q eqn:Hq. revert Hq.
  induction Hrun as [p | Y act0 k0 w0 r0 w0' evs0 log q Hact0 Hrun IH];
    intros ->.
  - change (Steps.runs_to (Atomic act k) evs (k r)).
    rewrite <- (app_nil_r evs). eapply Steps.runs_on; [exact Hact |].
    apply Steps.runs_here.
  - rewrite <- app_assoc. eapply Steps.runs_on; [exact Hact0 |]. by apply IH.
Qed.

Lemma exec_runs_to {A} (p : Prog W A) w :
  Steps.runs_to p (Steps.exec p w).2 (Finished (Steps.exec p w).1.1).
Proof.
  revert w. induction p as [r|X act k IH]; intros w; [apply Steps.runs_here |].
  simpl. destruct (act w) as [[r w1] t1] eqn:Hact.
  specialize (IH r w1). destruct (Steps.exec (k r) w1) as [[r2 w2] t2].
  eapply Steps.runs_on; [exact Hact | exact IH].
Qed.

Lemma plain_atom {X} (m : M W X) : emits plain m -> Steps.plain_prog (Steps.atom m).
Proof. intros Hm. apply Steps.plain_atomic; [exact Hm |]. intros r. constructor. Qed.

Lemma plain_bindP {A B} (m : Prog W A) (f : A -> Prog W B) :
  Steps.plain_prog m -> (forall a, Steps.plain_prog (f a)) ->
  Steps.plain_prog (Steps.bindP m f).
Proof.
  intros Hm Hf. induction Hm as [[e|a]|X act k Hact Hk IH]; simpl.
  - constructor.
  - apply Hf.
  - by constructor.
Qed.

Lemma plain_tryP {A} (b : Prog W A) cls (h : exn -> Prog W A) :
  Steps.plain_prog b -> (forall e, Steps.plain_prog (h e)) ->
  Steps.plain_prog (Steps.tryP b cls h).
Proof.
  intros Hb Hh. induction Hb as [[e|a]|X act k Hact Hk IH]; simpl.
  - destruct (isinstance e cls); [apply Hh | constructor].
  - constructor.
  - by constructor.
Qed.

Ltac plain_all :=
  repeat first
    [ apply plain_bindP; [| intros ?]
    | apply plain_tryP; [| intros ?]
    | apply plain_atom
    | apply Steps.plain_finished
    | apply emits_emit; reflexivity
    | apply emits_extern; reflexivity
    | apply emits_log; [intros ?; reflexivity | reflexivity]
    | match goal with
      | |- Steps.plain_prog (if ?b then _ else _) => destruct b
      end ].

Lemma plain_restart p : Steps.plain_prog (Steps._restart_process self p).
Proof. unfold Steps._restart_process. plain_all. Qed.

Lemma plain_check_loop cs p : Steps.plain_prog (Steps.check_loop self cs p).
Proof.
  induction cs as [|c cs IH]; cbn [Steps.check_loop]; [constructor |].
  apply plain_bindP.
  - unfold Steps.check_step.
    repeat first [apply plain_restart | progress plain_all].
  - intros [|]; [exact IH | constructor].
Qed.

End StepsFacts.

(** ** The states of the thread pool *)

Section PoolFacts.
Context {W : Type} `{Environment W}.
Variable self : CheckRunner W.

Lemma submitted_app t1 t2 : submitted (t1 ++ t2) = submitted t1 ++ submitted t2.
Proof.
  induction t1 as [|ev t1 IH]; [reflexivity |].
  destruct ev; simpl; rewrite ?IH; reflexivity.
Qed.

Lemma pool_sizes_app t1 t2 :
  pool_sizes (t1 ++ t2) = pool_sizes t1 ++ pool_sizes t2.
Proof.
  induction t1 as [|ev t1 IH]; [reflexivity |].
  destruct ev; simpl; rewrite ?IH; reflexivity.
Qed.

Lemma plain_reads t :
  Forall plain t ->
  submitted t = [] /\ completed t = [] /\ pool_sizes t = [] /\
  begun t = 0%nat /\ ended t = 0%nat.
Proof.
  induction 1 as [|ev t Hev _ (IH1 & IH2 & IH3 & IH4 & IH5)]; [done |].
  unfold begun, ended in *.
  destruct ev; try discriminate Hev; simpl; by rewrite ?IH1, ?IH2, ?IH3.
Qed.

Lemma plain_atomic_inv {A X} (act : M W X) (k : result X -> Prog W A) :
  Steps.plain_prog (Atomic act k) ->
  emits plain act /\ forall r, Steps.plain_prog (k r).
Proof.
  intros Hp.
  change (match Atomic act k with
          | Finished _ => True
          | Atomic act k => emits plain act /\ forall r, Steps.plain_prog (k r)
          end).
  by destruct Hp.
Qed.

Ltac reads :=
  rewrite ?submitted_app, ?completed_app, ?pool_sizes_app, ?length_app,
    ?fmap_app, ?last_snoc;
  unfold begun, ended in *; rewrite ?count_app; cbn.

Lemma init_invariant n tasks w :
  Pool.invariant self n tasks (Pool.init n tasks w).
Proof.
  unfold Pool.invariant, Pool.init. cbn. rewrite !app_nil_r.
  split_and!; try done; lia.
Qed.

Lemma step_invariant n tasks s s' :
  Pool.invariant self n tasks s -> Pool.step self s s' ->
  Pool.invariant self n tasks s'.
Proof.
  intros (Hn & Hth & Hsub & Hfl & Hsm & Hperm & Hbe & Hco & Hps & Hrun &
          Hfin & Hcl) Hstep.
  destruct Hstep; unfold Pool.invariant in *; cbn in *; subst n.
  - (* a submission starts a thread *)
    split_and!; reads; rewrite ?app_nil_r; try lia; try done;
      try (by rewrite <- app_assoc);
      try (rewrite <- Hperm; solve_Permutation).
  - (* a submission finds the pool large enough *)
    split_and!; reads; rewrite ?app_nil_r; try lia; try done;
      try (by rewrite <- app_assoc);
      try (rewrite <- Hperm; solve_Permutation).
  - (* a worker takes a task *)
    split_and!; reads; rewrite ?app_nil_r; try lia; try done;
      try (rewrite <- Hperm; solve_Permutation).
    + apply Forall_app. split; [exact Hrun |]. constructor; [| constructor].
      split; [apply plain_check_loop | apply Steps.runs_here].
    + intros Hc. by destruct (Hcl Hc) as (_ & Hq & _).
  - (* a task in flight makes a step *)
    apply Forall_app in Hrun as [Hrun1 Hrun2].
    apply Forall_cons in Hrun2 as [[Hpl Hinv] Hrun2].
    apply plain_atomic_inv in Hpl as [Hact Hk].
    specialize (Hact w). rewrite H0 in Hact. cbn in Hact.
    destruct (plain_reads evs Hact) as (Hs & Hc & Hp & Hb & He).
    unfold begun, ended in Hb, He.
    rewrite length_app in Hfl, Hbe. rewrite !fmap_app in Hperm.
    cbn in Hfl, Hbe, Hperm.
    split_and!; reads; rewrite ?Hs, ?Hc, ?Hp, ?Hb, ?He, ?app_nil_r;
      try lia; try done.
    + apply Forall_app. split; [exact Hrun1 |]. constructor; [| exact Hrun2].
      split; [apply Hk |]. unfold Pool.invocation in *. cbn in *.
      by eapply runs_to_snoc.
    + intros Hc'. destruct (Hcl Hc') as (_ & _ & Hf & _). by destruct f1.
  - (* a task finishes *)
    apply Forall_app in Hrun as [Hrun1 Hrun2].
    apply Forall_cons in Hrun2 as [[Hpl Hinv] Hrun2].
    rewrite length_app in Hfl, Hbe. rewrite !fmap_app in Hperm.
    cbn in Hfl, Hbe, Hperm.
    split_and!; reads; rewrite ?app_nil_r; try lia; try done;
      try (rewrite <- Hperm; solve_Permutation).
    + by rewrite Hco.
    + apply Forall_app. by split.
    + apply Forall_app. split; [exact Hfin |]. constructor; [| constructor].
      split; [by exists r | exact Hinv].
    + intros Hc'. destruct (Hcl Hc') as (_ & _ & Hf & _). by destruct f1.
  - (* the with block is left *)
    rewrite app_nil_r in Hsm.
    split_and!; reads; rewrite ?app_nil_r; try lia; try done.
Qed.

Lemma reachable_invariant n tasks w s :
  rtc (Pool.step self) (Pool.init n tasks w) s ->
  Pool.invariant self n tasks s.
Proof.
  revert s. apply rtc_ind_r; [apply init_invariant |].
  intros y z _ Hstep IH. by eapply step_invariant.
Qed.


(** *** The schedule of [with_ThreadPoolExecutor] *)

Lemma worker_task_eq p w :
  worker_task self p w =
    (let '(_, w', t) := _check_and_restart self p w in
     (inr tt, w', WorkerBegin p :: t ++ [WorkerEnd p])).
Proof.
  destruct (check_and_restart_returns self p w) as (w' & t & Hrun & _).
  unfold worker_task. mrun. reflexivity.
Qed.

Lemma with_pool_eq n ps w w' tw :
  foreach ps (worker_task self) w = (inr tt, w', tw) ->
  with_ThreadPoolExecutor self n ps w =
    (inr tt, w', PoolCreate n :: (PoolSubmit <$> ps) ++ tw ++ [PoolShutdown]).
Proof.
  intros Hrun. unfold with_ThreadPoolExecutor. unfold bind at 1 2.
  unfold emit at 1. rewrite submit_all. unfold bind. rewrite Hrun.
  unfold emit. reflexivity.
Qed.

(** All the submissions, before any worker runs. *)
Lemma submit_run n u q d th w t :
  (0 < n)%nat ->
  exists th',
    (th <= th')%nat /\ (u <> [] -> 0 < th')%nat /\
    rtc (Pool.step self)
      (Pool.mkState n u q [] d th false w t)
      (Pool.mkState n [] (q ++ u) [] d th' false w (t ++ (PoolSubmit <$> u))).
Proof.
  intros Hn. revert q th t. induction u as [|p u IH]; intros q th t.
  - exists th. rewrite !app_nil_r. split_and!; [lia | done | apply rtc_refl].
  - destruct th as [|th].
    + destruct (IH (q ++ [p]) 1%nat (t ++ [PoolSubmit p]))
        as (th' & Hle & _ & Hrun).
      exists th'. split_and!; [lia | lia |].
      eapply rtc_l; [by apply Pool.submit_spawn |].
      by rewrite <- !app_assoc in Hrun.
    + destruct (IH (q ++ [p]) (S th) (t ++ [PoolSubmit p]))
        as (th' & Hle & _ & Hrun).
      exists th'. split_and!; [lia | lia |].
      eapply rtc_l; [apply Pool.submit_reuse; right; simpl; lia |].
      by rewrite <- !app_assoc in Hrun.
Qed.

(** A task run to its end with no other thread in between. *)
Lemma task_run n u q d th c p (prog : Prog W unit) log w t :
  rtc (Pool.step self)
    (Pool.mkState n u q [Pool.mkTask p prog log] d th c w t)
    (Pool.mkState n u q
       [Pool.mkTask p (Finished (Steps.exec prog w).1.1)
          (log ++ (Steps.exec prog w).2)]
       d th c (Steps.exec prog w).1.2 (t ++ (Steps.exec prog w).2)).
Proof.
  revert log w t. induction prog as [r|X act k IH]; intros log w t.
  - simpl. rewrite !app_nil_r. apply rtc_refl.
  - simpl. destruct (act w) as [[r w1] t1] eqn:Hact.
    specialize (IH r (log ++ t1) w1 (t ++ t1)).
    destruct (Steps.exec (k r) w1) as [[r2 w2] t2]. cbn in *.
    eapply rtc_l.
    + exact (Pool.work self n u q [] p act k log [] d th c w t r w1 t1 Hact).
    + by rewrite <- !app_assoc in IH.
Qed.

(** The queued tasks, one after the other. *)
Lemma workers_serial n q d th w t :
  (q <> [] -> 0 < th)%nat ->
  exists d',
    rtc (Pool.step self)
      (Pool.mkState n [] q [] d th false w t)
      (Pool.mkState n [] [] [] d' th false
         (foreach q (worker_task self) w).1.2
         (t ++ (foreach q (worker_task self) w).2)) /\
    (foreach q (worker_task self) w).1.1 = inr tt.
Proof.
  revert d w t. induction q as [|p q IH]; intros d w t Hth.
  - exists d. simpl. rewrite app_nil_r. split; [apply rtc_refl | done].
  - assert (0 < th)%nat as Hpos by (by apply Hth).
    cbn [foreach]. unfold bind. rewrite worker_task_eq.
    pose proof (exec_check_and_restart self p w) as Hexec.
    pose proof (task_run n [] q d th false p
                  (Steps._check_and_restart self p) [] w
                  (t ++ [WorkerBegin p])) as Hwork.
    rewrite Hexec in Hwork.
    destruct (_check_and_restart self p w) as [[r w1] t1]. cbn in Hwork.
    destruct (IH (d ++ [Pool.mkTask p (Finished r) t1]) w1
                ((t ++ [WorkerBegin p]) ++ t1 ++ [WorkerEnd p]))
      as (d' & Hrest & Hok); [intros _; exact Hpos |].
    destruct (foreach q (worker_task self) w1) as [[r2 w2] t2].
    cbn in *. subst r2. exists d'. split; [| done].
    eapply rtc_l; [by apply (Pool.take self n [] p q [] d th false w t) |].
    etrans; [exact Hwork |].
    eapply rtc_l.
    + exact (Pool.finish self n [] q [] p r t1 [] d th false w1
               ((t ++ [WorkerBegin p]) ++ t1)).
    + cbn. by rewrite <- !app_assoc in *.
Qed.

(** [with_ThreadPoolExecutor] is one complete run of the pool: the one
    that submits everything first and then runs the tasks one by one. *)
Lemma serial_schedule n ps w :
  (0 < n)%nat ->
  exists s,
    rtc (Pool.step self) (Pool.init n ps w) s /\
    Pool.closed s = true /\
    with_ThreadPoolExecutor self n ps w = (inr tt, Pool.world s, Pool.trace s).
Proof.
  intros Hn. unfold Pool.init.
  destruct (submit_run n ps [] [] 0 w [PoolCreate n] Hn)
    as (th & _ & Hth & Hsub).
  destruct (workers_serial n ps [] th w ([PoolCreate n] ++ (PoolSubmit <$> ps))
              Hth) as (d' & Hwork & Hok).
  destruct (foreach ps (worker_task self) w) as [[r w'] tw] eqn:Hrun.
  cbn in Hwork, Hok. subst r.
  eexists. split_and!.
  - etrans; [exact Hsub |]. etrans; [exact Hwork |].
    apply rtc_once, Pool.leave.
  - reflexivity.
  - rewrite (with_pool_eq n ps w w' tw Hrun). cbn.
    by rewrite <- !app_assoc.
Qed.

End PoolFacts.

(** ** The dispatcher and its pool *)

Section Pooled.
Context {W : Type} `{Environment W}.
Variable self : CheckRunner W.

(** C4, as the code has it: a single match is checked in the calling
    thread and no pool is made.  Several matches go to a pool created with
    the constant [MAX_THREADS], whatever their number: the outcome of the
    cycle is that of a complete run of this pool; in every state of every
    run of it, the matches are submitted once each in the order of the
    enumeration, every task in flight or finished is an invocation of
    [_check_and_restart] on a match, the threads started and the tasks in
    flight (those begun and not ended in the trace) number at most
    [min 16 (length matches)], and once the [with] block is left every task
    has finished. *)
Theorem dispatch_is_bounded w procs w1 :
  rpc_getAllProcessInfo w = (inr procs, w1) ->
  let ms := matches (_process_group self) procs in
  (forall p, ms = [p] ->
     exists w' t,
       _check_and_restart self p w1 = (inr tt, w', t) /\
       _check_processes self w = (inr tt, w', GetAllProcessInfo :: t) /\
       Forall plain t) /\
  (forall p w, Steps.exec (Steps._check_and_restart self p) w =
               _check_and_restart self p w) /\
  ((1 < length ms)%nat ->
     (exists s,
        rtc (Pool.step self) (Pool.init MAX_THREADS ms w1) s /\
        Pool.closed s = true /\
        _check_processes self w =
          (inr tt, Pool.world s, GetAllProcessInfo :: Pool.trace s)) /\
     (forall s,
        rtc (Pool.step self) (Pool.init MAX_THREADS ms w1) s ->
        pool_sizes (Pool.trace s) = [MAX_THREADS] /\
        submitted (Pool.trace s) ++ Pool.pending s = ms /\
        (length (Pool.in_flight s) <= Nat.min 16 (length ms))%nat /\
        (Pool.threads s <= Nat.min 16 (length ms))%nat /\
        begun (Pool.trace s) =
          (ended (Pool.trace s) + length (Pool.in_flight s))%nat /\
        Forall (fun tk => Pool.task_spec tk ∈ ms /\ Pool.invocation self tk)
               (Pool.in_flight s ++ Pool.finished s) /\
        (Pool.closed s = true ->
         Pool.in_flight s = [] /\
         Pool.task_spec <$> Pool.finished s ≡ₚ ms /\
         Forall (fun tk => exists r, Pool.task_prog tk = Finished r)
                (Pool.finished s) /\
         last (Pool.trace s) = Some PoolShutdown))).
Proof.
  intros Hall ms. split_and!.
  - intros p Hms. destruct (check_and_restart_returns self p w1)
      as (w' & t & Hrun & Hpl).
    exists w', t. split; [exact Hrun | split; [| exact Hpl]].
    unfold _check_processes. unfold bind at 1.
    rewrite (enumerate self w procs w1 Hall). fold ms. rewrite Hms, Hrun.
    reflexivity.
  - apply exec_check_and_restart.
  - intros Hlen. split.
    + destruct (serial_schedule self MAX_THREADS ms w1) as (s & Hs & Hc & Hrun);
        [unfold MAX_THREADS; lia |].
      exists s. split_and!; [exact Hs | exact Hc |].
      unfold _check_processes. unfold bind at 1.
      rewrite (enumerate self w procs w1 Hall). fold ms.
      destruct ms as [|p1 [|p2 ps]]; simpl in Hlen; try lia.
      rewrite Hrun. reflexivity.
    + intros s Hs.
      destruct (reachable_invariant self _ _ _ _ Hs)
        as (_ & Hth & Hsub & Hfl & Hsm & Hperm & Hbe & _ & Hps & Hrun &
            Hfin & Hcl).
      unfold MAX_THREADS in *. split_and!; try done; try lia.
      * apply Forall_app. split.
        -- apply Forall_forall. intros tk Hin. split.
           ++ rewrite <- Hperm. rewrite !elem_of_app. right. right. left.
              by apply list_elem_of_fmap_2.
           ++ by apply (proj1 (Forall_forall _ _) Hrun tk Hin).
        -- apply Forall_forall. intros tk Hin. split.
           ++ rewrite <- Hperm. rewrite !elem_of_app. right. right. right.
              by apply list_elem_of_fmap_2.
           ++ by apply (proj1 (Forall_forall _ _) Hfin tk Hin).
      * intros Hc. destruct (Hcl Hc) as (Hp & Hq & Hf & Hlast).
        rewrite Hp, Hq, Hf in Hperm. split_and!; [done | exact Hperm | | done].
        eapply Forall_impl; [exact Hfin |]. by intros tk [Hr _].
Qed.

(** Two tasks can be in flight together, each with its own invocation. *)
Example two_tasks_in_flight (a b : ProcessSpec) (w : W) :
  rtc (Pool.step self) (Pool.init 16 [a; b] w)
    (Pool.mkState 16 [] []
       [Pool.mkTask a (Steps._check_and_restart self a) [];
        Pool.mkTask b (Steps._check_and_restart self b) []]
       [] 2 false w
       [PoolCreate 16; PoolSubmit a; PoolSubmit b; WorkerBegin a;
        WorkerBegin b]).
Proof.
  eapply rtc_l; [apply Pool.submit_spawn; lia |].
  eapply rtc_l; [apply Pool.submit_spawn; lia |].
  eapply rtc_l; [apply Pool.take; simpl; lia |].
  eapply rtc_l; [apply Pool.take; simpl; lia |].
  apply rtc_refl.
Qed.

End Pooled.

(** ** Concrete runs *)

(** C1, counterexample: a tick arrives, [getAllProcessInfo] fails with a
    fault, and [run] ends with that fault although the stop event was never
    set; the event is not acknowledged. *)
Lemma enumeration_fault_ends_run :
  stop_event_is_set Scenario.unreachable = false /\
  (run Scenario.hc 3 Scenario.unreachable).1.1 = inl (Sim.fault "down") /\
  stop_event_is_set (run Scenario.hc 3 Scenario.unreachable).1.2 = false /\
  acknowledged (run Scenario.hc 3 Scenario.unreachable).2 = false.
Proof. vm_compute. by repeat split. Qed.

(** C2, on the failing input: the re-fetch of the restart that check B
    triggers fails with a fault; the handler of the check loop takes it for
    an error of the check, so C is evaluated as well and triggers a second
    restart.  Likewise when the first restart fails after it has stopped the
    process: the process is then stopped and started twice. *)
Theorem restart_error_resumes_checks :
  let t := (_check_and_restart Scenario.abc Scenario.web_a Scenario.flaky).2 in
  let t' :=
    (_check_and_restart Scenario.abc Scenario.web_a Scenario.dropped).2 in
  (checks_run t = ["A"; "B"; "C"] /\
   restart_attempts t = 2%nat /\
   actions t = [StopProcess "web:a"; StartProcess "web:a" false]) /\
  (checks_run t' = ["A"; "B"; "C"] /\
   restart_attempts t' = 2%nat /\
   actions t' = [StopProcess "web:a"; StartProcess "web:a" false;
                 StopProcess "web:a"; StartProcess "web:a" false]).
Proof. vm_compute. by repeat split. Qed.

(** The enumeration saw the process RUNNING, the re-fetch finds it STOPPING:
    nothing is stopped or started. *)
Lemma restart_acts_only_on_fresh_running_witness :
  _restart_process Scenario.hc Scenario.web_a Scenario.stale =
    Scenario.stale_outcome /\
  state Scenario.web_a = ProcessStates.RUNNING /\
  Scenario.stale_outcome.1.1 = inr tt /\
  actions Scenario.stale_outcome.2 = [].
Proof.
  assert (_restart_process Scenario.hc Scenario.web_a Scenario.stale =
            (Scenario.stale_outcome.1.1, Scenario.stale_outcome.1.2,
             Scenario.stale_outcome.2)) as Hrun by (vm_compute; reflexivity).
  destruct (restart_acts_only_on_fresh_running Scenario.hc Scenario.web_a
              Scenario.stale _ _ _ Hrun) as [_ Hskip].
  destruct (Hskip (Sim.web "a" ProcessStates.STOPPING) Scenario.quiet
              eq_refl) as (Hr & _ & Ht); [discriminate |].
  split_and!; [reflexivity | reflexivity | exact Hr |].
  rewrite Ht. reflexivity.
Defined.

(** Both [stopProcess] and [startProcess] fail with a fault: both are
    called, and the restart returns. *)
Lemma restart_tolerates_faults_witness :
  let w1 := Scenario.world [] [] [] [inl (Sim.fault "NOT_RUNNING")]
              [inl (Sim.fault "ALREADY_STARTED")] [] in
  let w2 := Scenario.world [] [] [] [] [inl (Sim.fault "ALREADY_STARTED")] [] in
  rpc_getProcessInfo "web:a" Scenario.racing = (inr Scenario.web_a, w1) /\
  state Scenario.web_a = ProcessStates.RUNNING /\
  rpc_stopProcess "web:a" w1 = (inl (Sim.fault "NOT_RUNNING"), w2) /\
  returned_or_fault (inl (Sim.fault "NOT_RUNNING")) /\
  rpc_startProcess "web:a" false w2 =
    (inl (Sim.fault "ALREADY_STARTED"), Scenario.quiet) /\
  returned_or_fault (inl (Sim.fault "ALREADY_STARTED")) /\
  (_restart_process Scenario.hc Scenario.web_a Scenario.racing).1.1 = inr tt /\
  actions (_restart_process Scenario.hc Scenario.web_a Scenario.racing).2 =
    [StopProcess "web:a"; StartProcess "web:a" false].
Proof.
  intros w1 w2.
  assert (rpc_getProcessInfo "web:a" Scenario.racing =
            (inr Scenario.web_a, w1)) as Hinfo by reflexivity.
  assert (rpc_stopProcess "web:a" w1 = (inl (Sim.fault "NOT_RUNNING"), w2))
    as Hstop by reflexivity.
  assert (rpc_startProcess "web:a" false w2 =
            (inl (Sim.fault "ALREADY_STARTED"), Scenario.quiet))
    as Hstart by reflexivity.
  pose proof (restart_tolerates_faults Scenario.hc Scenario.web_a
                Scenario.racing Scenario.web_a w1 _ w2 _ Scenario.quiet
                Hinfo eq_refl Hstop eq_refl Hstart eq_refl) as Hrun.
  split_and!; try reflexivity; rewrite Hrun; reflexivity.
Defined.

(** Check A raises, check B is evaluated all the same, and no restart is
    attempted. *)
Lemma check_error_is_skipped_witness :
  let boom := mkExn Exception "boom" in
  call (Sim.const_check "A" (inl boom)) Scenario.web_a Scenario.quiet =
    (inl boom, Scenario.quiet) /\
  checks_run
    (_check_and_restart Scenario.broken_first Scenario.web_a Scenario.quiet).2
  = ["A"; "B"] /\
  restart_attempts
    (_check_and_restart Scenario.broken_first Scenario.web_a Scenario.quiet).2
  = 0%nat.
Proof.
  intros boom.
  assert (call (Sim.const_check "A" (inl boom)) Scenario.web_a Scenario.quiet =
            (inl boom, Scenario.quiet)) as Hcall by reflexivity.
  pose proof (check_error_is_skipped Scenario.broken_first
                (Sim.const_check "A" (inl boom))
                [Sim.const_check "B" (inr true)] Scenario.web_a
                Scenario.quiet boom Scenario.quiet Hcall) as Hrun.
  split_and!; [reflexivity | |];
    unfold _check_and_restart;
    change (_checks Scenario.broken_first)
      with [Sim.const_check "A" (inl boom); Sim.const_check "B" (inr true)];
    rewrite Hrun; reflexivity.
Defined.

(** No process of the group [web] is RUNNING. *)
Lemma no_match_is_a_noop_witness :
  rpc_getAllProcessInfo Scenario.idle =
    (inr Scenario.other_groups, Scenario.quiet) /\
  matches "web" Scenario.other_groups = [] /\
  _check_processes Scenario.hc Scenario.idle =
    (inr tt, Scenario.quiet,
     GetAllProcessInfo ::
       log_events Scenario.hc Scenario.quiet
         "No processes in state RUNNING found for process group web").
Proof.
  assert (rpc_getAllProcessInfo Scenario.idle =
            (inr Scenario.other_groups, Scenario.quiet)) as Hall
    by reflexivity.
  assert (matches "web" Scenario.other_groups = []) as Hnone by reflexivity.
  split_and!; [reflexivity | reflexivity |].
  exact (proj1 (no_match_is_a_noop Scenario.hc Scenario.idle
                  Scenario.other_groups Scenario.quiet Hall Hnone)).
Defined.

(** A process state event is logged and acknowledged. *)
Lemma unsupported_event_is_acknowledged_witness :
  listener_wait Scenario.foreign = (inr Scenario.state_change, Scenario.quiet) /\
  Scenario.state_change !! EVENT_NAME_KEY = Some "PROCESS_STATE_EXITED" /\
  ("PROCESS_STATE_EXITED" ∉ TICK_EVENTS) /\
  run_step Scenario.hc Scenario.foreign =
    (inr Next, Scenario.quiet,
     [ListenerWait] ++
     log_events Scenario.hc Scenario.quiet
       "Received unsupported event type: PROCESS_STATE_EXITED" ++
     [ListenerOk]).
Proof.
  assert (listener_wait Scenario.foreign =
            (inr Scenario.state_change, Scenario.quiet)) as Hwait
    by reflexivity.
  assert (Scenario.state_change !! EVENT_NAME_KEY =
            Some "PROCESS_STATE_EXITED") as Hkey by reflexivity.
  assert ("PROCESS_STATE_EXITED" ∉ TICK_EVENTS) as Hkind by compute_done.
  split_and!; [reflexivity | reflexivity | exact Hkind |].
  exact (unsupported_event_is_acknowledged Scenario.hc Scenario.foreign
           Scenario.state_change Scenario.quiet "PROCESS_STATE_EXITED"
           Hwait Hkey Hkind).
Defined.

(** On 2026-11-04 at 12:07:30 the line is dated 2026/07/04. *)
Lemma log_line_format_witness :
  pyformat "Stopped process %s" ["web:a"] = inr "Stopped process web:a" /\
  _log Scenario.hc "Stopped process %s" ["web:a"] Scenario.quiet =
    (inr tt, Scenario.quiet,
     [StderrWrite ("2026/07/04 12:07:30 [hc] Stopped process web:a" +:+ LF);
      StderrFlush]).
Proof.
  assert (pyformat "Stopped process %s" ["web:a"] =
            inr "Stopped process web:a") as Hfmt by reflexivity.
  split; [reflexivity |].
  exact (log_line_format Scenario.hc "Stopped process %s" ["web:a"]
           "Stopped process web:a" Scenario.quiet Hfmt).
Defined.

(** ** Concrete runs, continued *)

(** Of four processes, the three RUNNING ones of the group [web] are kept,
    in the order of the enumeration. *)
Lemma process_spec_list_filter_witness :
  rpc_getAllProcessInfo Scenario.busy =
    (inr Scenario.three_procs, Scenario.quiet) /\
  _get_process_spec_list Scenario.hc (Some ProcessStates.RUNNING)
    Scenario.busy =
    (inr [Scenario.web_a; Scenario.web_b; Scenario.web_c], Scenario.quiet,
     [GetAllProcessInfo]).
Proof.
  assert (rpc_getAllProcessInfo Scenario.busy =
            (inr Scenario.three_procs, Scenario.quiet)) as Hall by reflexivity.
  split; [exact Hall |].
  destruct (process_spec_list_filter Scenario.hc (Some ProcessStates.RUNNING)
              Scenario.busy Scenario.three_procs Scenario.quiet Hall)
    as (l & Hrun & _).
  reflexivity.
Defined.

(** Check A raises and check B passes: both are evaluated, nothing is
    restarted. *)
Lemma no_failed_check_no_restart_witness :
  Forall (fun check =>
            forall w, (call check Scenario.web_a w).1 <> inr false)
         (_checks Scenario.broken_first) /\
  checks_run
    (_check_and_restart Scenario.broken_first Scenario.web_a Scenario.quiet).2
  = ["A"; "B"].
Proof.
  assert (Forall (fun check =>
                    forall w, (call check Scenario.web_a w).1 <> inr false)
                 (_checks Scenario.broken_first)) as Hall
    by (repeat constructor; intros w; discriminate).
  split; [exact Hall |].
  exact (proj1 (no_failed_check_no_restart Scenario.broken_first
                  Scenario.web_a Scenario.quiet Hall)).
Defined.

(** [startProcess] ends with an error that is not a fault: the error leaves
    the restart after both calls were made. *)
Lemma restart_raises_only_witness :
  _restart_process Scenario.hc Scenario.web_a Scenario.dropped =
    Scenario.dropped_outcome /\
  Scenario.dropped_outcome.1.1 = inl (mkExn Exception "timed out") /\
  exn_cls (mkExn Exception "timed out") <> Fault.
Proof.
  assert (_restart_process Scenario.hc Scenario.web_a Scenario.dropped =
            (inl (mkExn Exception "timed out"), Scenario.dropped_outcome.1.2,
             Scenario.dropped_outcome.2)) as Hrun by (vm_compute; reflexivity).
  split_and!; [reflexivity | reflexivity |].
  destruct (restart_raises_only Scenario.hc Scenario.web_a Scenario.dropped
              _ _ _ Hrun) as [[Hinfo _] | [Hcls _]];
    [discriminate Hinfo | exact Hcls].
Defined.

(** Four processes are enumerated, one of them of another group: every
    event of the cycle concerns a RUNNING process of the group [web]. *)
Lemma cycle_touches_only_matches_witness :
  rpc_getAllProcessInfo Scenario.busy =
    (inr Scenario.three_procs, Scenario.quiet) /\
  Forall
    (within (fun p =>
               p ∈ Scenario.three_procs /\ group p = "web" /\
               state p = ProcessStates.RUNNING))
    (_check_processes Scenario.hc Scenario.busy).2.
Proof.
  assert (rpc_getAllProcessInfo Scenario.busy =
            (inr Scenario.three_procs, Scenario.quiet)) as Hall by reflexivity.
  split; [exact Hall |].
  exact (cycle_touches_only_matches Scenario.hc Scenario.busy
           Scenario.three_procs Scenario.quiet Hall).
Defined.

(** The stop event is set from the start: nothing is awaited. *)
Lemma run_with_stop_set_witness :
  stop_event_is_set Scenario.halted = true /\
  waits (run Scenario.hc 1 Scenario.halted).2 = 0%nat.
Proof.
  assert (stop_event_is_set Scenario.halted = true) as Hstop by reflexivity.
  split; [exact Hstop |].
  rewrite (run_with_stop_set Scenario.hc 0 Scenario.halted Hstop).
  reflexivity.
Defined.

(** A tick whose enumeration fails still counts one enumeration. *)
Lemma one_enumeration_per_tick_witness :
  listener_wait Scenario.unreachable =
    (inr Scenario.tick_60,
     Scenario.world [] [inl (Sim.fault "down")] [] [] [] []) /\
  Scenario.tick_60 !! EVENT_NAME_KEY = Some "TICK_60" /\
  enumerations (run_step Scenario.hc Scenario.unreachable).2 = 1%nat.
Proof.
  assert (listener_wait Scenario.unreachable =
            (inr Scenario.tick_60,
             Scenario.world [] [inl (Sim.fault "down")] [] [] [] []))
    as Hwait by reflexivity.
  assert (Scenario.tick_60 !! EVENT_NAME_KEY = Some "TICK_60") as Hkey
    by reflexivity.
  split_and!; [exact Hwait | exact Hkey |].
  exact (one_enumeration_per_tick Scenario.hc Scenario.unreachable
           Scenario.tick_60 _ "TICK_60" Hwait Hkey).
Defined.

(** SIGTERM arrives: the loop ends at its next head. *)
Lemma signal_handler_stops_loop_witness :
  stop_event_is_set (stop_event_set Scenario.quiet) = true /\
  (bind (_signal_handler Scenario.hc "15")
        (fun _ => run_loop Scenario.hc 1) Scenario.quiet).1.1 = inr Exited.
Proof.
  assert (stop_event_is_set (stop_event_set Scenario.quiet) = true) as Hset
    by reflexivity.
  split; [exact Hset |].
  rewrite (signal_handler_stops_loop Scenario.hc "15" 0 Scenario.quiet Hset).
  reflexivity.
Defined.

(** ** Concrete runs: the pool and the later passes *)

(** C4, counterexample: with three matches the pool is created for 16
    workers, not for [min 16 3]. *)
Lemma pool_is_sized_by_the_constant :
  matches "web" Scenario.three_procs =
    [Scenario.web_a; Scenario.web_b; Scenario.web_c] /\
  pool_sizes (_check_processes Scenario.hc Scenario.busy).2 = [16%nat] /\
  pool_sizes (_check_processes Scenario.hc Scenario.busy).2 <>
    [Nat.min 16 (length (matches "web" Scenario.three_procs))].
Proof. vm_compute. split_and!; [done | done | discriminate]. Qed.

(** Three processes of the group are RUNNING: in no state of the pool are
    more than three tasks in flight. *)
Lemma dispatch_is_bounded_witness :
  rpc_getAllProcessInfo Scenario.busy =
    (inr Scenario.three_procs, Scenario.quiet) /\
  matches "web" Scenario.three_procs =
    [Scenario.web_a; Scenario.web_b; Scenario.web_c] /\
  forall s,
    rtc (Pool.step Scenario.hc)
      (Pool.init 16 [Scenario.web_a; Scenario.web_b; Scenario.web_c]
         Scenario.quiet) s ->
    (length (Pool.in_flight s) <= 3)%nat /\
    begun (Pool.trace s) = (ended (Pool.trace s) + length (Pool.in_flight s))%nat.
Proof.
  assert (rpc_getAllProcessInfo Scenario.busy =
            (inr Scenario.three_procs, Scenario.quiet)) as Hall by reflexivity.
  split_and!; [reflexivity | reflexivity |]. intros s Hs.
  destruct (dispatch_is_bounded Scenario.hc Scenario.busy
              Scenario.three_procs Scenario.quiet Hall) as (_ & _ & Hpool).
  destruct Hpool as [_ Hbound]; [simpl; lia |].
  destruct (Hbound s Hs) as (_ & _ & Hfl & _ & Hbe & _). by split.
Defined.

(** A tick for one process whose check raises: the pass ends with the
    acknowledgement and the loop goes on.  On the next tick the enumeration
    fails: [run] ends with the fault, one wait acknowledged, one not. *)
Lemma tick_errors_and_exit_witness :
  (listener_wait Scenario.raising =
     (inr Scenario.tick_5,
      Scenario.world [] [inr [Scenario.web_a]] [] [] []
        [inl (mkExn Exception "timed out")]) /\
   Scenario.tick_5 !! EVENT_NAME_KEY = Some "TICK_5" /\
   "TICK_5" ∈ TICK_EVENTS /\
   exists w' t,
     run_step Scenario.hc Scenario.raising =
       (inr Next, w', t ++ [ListenerOk])) /\
  (let w := Scenario.world [Sim.event "TICK_60"] [inl (Sim.fault "down")]
              [] [] [] [] in
   after_passes Scenario.hc 1 Scenario.late_unreachable =
     Some (w, (run_step Scenario.hc Scenario.late_unreachable).2 ++ []) /\
   stop_event_is_set w = false /\
   listener_wait w =
     (inr Scenario.tick_60,
      Scenario.world [] [inl (Sim.fault "down")] [] [] [] []) /\
   Scenario.tick_60 !! EVENT_NAME_KEY = Some "TICK_60" /\
   "TICK_60" ∈ TICK_EVENTS /\
   (run Scenario.hc 2 Scenario.late_unreachable).1.1 =
     inl (Sim.fault "down") /\
   acks (run Scenario.hc 2 Scenario.late_unreachable).2 = 1%nat /\
   waits (run Scenario.hc 2 Scenario.late_unreachable).2 = 2%nat).
Proof.
  assert ("TICK_5" ∈ TICK_EVENTS) as Htick5 by compute_done.
  assert ("TICK_60" ∈ TICK_EVENTS) as Htick60 by compute_done.
  split.
  - split_and!; [reflexivity | reflexivity | exact Htick5 |].
    exact (proj1 (tick_errors_and_exit Scenario.hc) Scenario.raising _ _ _
             [Scenario.web_a] _ eq_refl eq_refl Htick5 eq_refl).
  - intros w.
    assert (after_passes Scenario.hc 1 Scenario.late_unreachable =
              Some (w, (run_step Scenario.hc Scenario.late_unreachable).2
                       ++ [])) as Hn by (vm_compute; reflexivity).
    assert (listener_wait w =
              (inr Scenario.tick_60,
               Scenario.world [] [inl (Sim.fault "down")] [] [] [] []))
      as Hwait by reflexivity.
    assert (rpc_getAllProcessInfo
              (Scenario.world [] [inl (Sim.fault "down")] [] [] [] []) =
              (inl (Sim.fault "down"), Scenario.quiet)) as Hall
      by reflexivity.
    destruct (proj1 (proj2 (tick_errors_and_exit Scenario.hc))
                1%nat Scenario.late_unreachable w _ Scenario.tick_60 _
                "TICK_60" _ _ 0%nat Hn eq_refl Hwait eq_refl Htick60 Hall)
      as (Hrun & Hw & Ha).
    change (1 + 1)%nat with 2%nat in Hrun.
    split_and!; [exact Hn | reflexivity | exact Hwait | reflexivity
                | exact Htick60 | | |]; rewrite Hrun; [reflexivity | |].
    + exact Ha.
    + exact Hw.
Defined.

(** An event of another kind is acknowledged; the next header block has a
    [len] field only. *)
Lemma missing_eventname_is_fatal_witness :
  let w := Scenario.world [inr Scenario.no_kind] [] [] [] [] [] in
  after_passes Scenario.hc 1 Scenario.late_headless =
    Some (w, (run_step Scenario.hc Scenario.late_headless).2 ++ []) /\
  stop_event_is_set w = false /\
  listener_wait w = (inr Scenario.no_kind, Scenario.quiet) /\
  Scenario.no_kind !! EVENT_NAME_KEY = None /\
  (run Scenario.hc 2 Scenario.late_headless).1.1 =
    inl (mkExn KeyError "eventname") /\
  waits (run Scenario.hc 2 Scenario.late_headless).2 = 2%nat /\
  acks (run Scenario.hc 2 Scenario.late_headless).2 = 1%nat.
Proof.
  intros w.
  assert (after_passes Scenario.hc 1 Scenario.late_headless =
            Some (w, (run_step Scenario.hc Scenario.late_headless).2 ++ []))
    as Hn by (vm_compute; reflexivity).
  assert (listener_wait w = (inr Scenario.no_kind, Scenario.quiet)) as Hwait
    by reflexivity.
  assert (Scenario.no_kind !! EVENT_NAME_KEY = None) as Hkey by reflexivity.
  destruct (missing_eventname_is_fatal Scenario.hc 1 Scenario.late_headless
              w _ Scenario.no_kind Scenario.quiet 0 Hn eq_refl Hwait Hkey)
    as (Hrun & Hw & Ha).
  change (1 + 1)%nat with 2%nat in Hrun.
  split_and!; [exact Hn | reflexivity | exact Hwait | exact Hkey | | |];
    rewrite Hrun; [reflexivity | exact Hw | exact Ha].
Defined.

(** An event of another kind is acknowledged; the next wait is
    interrupted. *)
Lemma interrupted_wait_ends_run_witness :
  after_passes Scenario.hc 1 Scenario.foreign =
    Some (Scenario.quiet, (run_step Scenario.hc Scenario.foreign).2 ++ []) /\
  stop_event_is_set Scenario.quiet = false /\
  listener_wait Scenario.quiet =
    (inl (mkExn WaitInterrupted ""), Scenario.quiet) /\
  (run Scenario.hc 2 Scenario.foreign).1.1 = inr Exited /\
  waits (run Scenario.hc 2 Scenario.foreign).2 = 2%nat /\
  acks (run Scenario.hc 2 Scenario.foreign).2 = 1%nat.
Proof.
  assert (after_passes Scenario.hc 1 Scenario.foreign =
            Some (Scenario.quiet,
                  (run_step Scenario.hc Scenario.foreign).2 ++ []))
    as Hn by (vm_compute; reflexivity).
  assert (listener_wait Scenario.quiet =
            (inl (mkExn WaitInterrupted ""), Scenario.quiet)) as Hwait
    by reflexivity.
  destruct (interrupted_wait_ends_run Scenario.hc 1 Scenario.foreign
              Scenario.quiet _ 0 _ _ Hn eq_refl Hwait eq_refl)
    as (Hrun & Hw & Ha).
  change (1 + 1)%nat with 2%nat in Hrun.
  split_and!; [exact Hn | reflexivity | exact Hwait | | |];
    rewrite Hrun; [reflexivity | exact Hw | exact Ha].
Defined.

(** An event of another kind is acknowledged; the next wait fails with
    another error. *)
Lemma wait_error_ends_run_witness :
  let w := Scenario.world [inl (mkExn Exception "EOF")] [] [] [] [] [] in
  after_passes Scenario.hc 1 Scenario.late_broken_pipe =
    Some (w, (run_step Scenario.hc Scenario.late_broken_pipe).2 ++ []) /\
  stop_event_is_set w = false /\
  listener_wait w = (inl (mkExn Exception "EOF"), Scenario.quiet) /\
  exn_cls (mkExn Exception "EOF") <> WaitInterrupted /\
  (run Scenario.hc 2 Scenario.late_broken_pipe).1.1 =
    inl (mkExn Exception "EOF") /\
  acks (run Scenario.hc 2 Scenario.late_broken_pipe).2 = 1%nat.
Proof.
  intros w.
  assert (after_passes Scenario.hc 1 Scenario.late_broken_pipe =
            Some (w, (run_step Scenario.hc Scenario.late_broken_pipe).2
                     ++ [])) as Hn by (vm_compute; reflexivity).
  assert (listener_wait w = (inl (mkExn Exception "EOF"), Scenario.quiet))
    as Hwait by reflexivity.
  assert (exn_cls (mkExn Exception "EOF") <> WaitInterrupted) as Hcls
    by discriminate.
  destruct (wait_error_ends_run Scenario.hc 1 Scenario.late_broken_pipe
              w _ 0 _ _ Hn eq_refl Hwait Hcls) as (Hrun & Hw & Ha).
  change (1 + 1)%nat with 2%nat in Hrun.
  split_and!; [exact Hn | reflexivity | exact Hwait | exact Hcls | |];
    rewrite Hrun; [reflexivity | exact Ha].
Defined.
